(** * go-dwarf: call-frame information and location expressions

    A shallow embedding of [loclist.go] and [unwind.go] of the package
    [dwarf], with the properties of its specification stated over it.

    Conventions of the embedding.
    - The target is a 64-bit platform (the test binary is an amd64 Mach-O
      image): [uint], [uint64] and [uintptr] are 64-bit unsigned integers,
      [int64] is their two's-complement reading.  Every machine integer is a
      [Z] kept in the range of its type; wrap-around is written out with
      [wrap64], [int64_of], [wrap8].
    - A [bytes.Reader] is modelled by its unread remainder (a [list byte]);
      reading takes from the front.  The only seeks of the program are
      forward and relative ([skipn]) or absolute on a fresh reader
      ([skipn] from the start); a position past the end reads as
      end-of-file, exactly as the empty remainder does.
    - Go errors are the constructors of [error], one per message.
    - The trace output of the package ([fmt.Println], [log.Println]) is
      left out.
    - The [for] loops whose body reads more than one byte (the evaluator,
      [Update], the replay of an FDE, the scan of the region) are iterated
      over a fuel bound; the entry points supply the length of the input
      plus one, and the totality lemmas show that this is enough. *)

From Stdlib Require Import ZArith List Bool Lia.
From Stdlib Require Import Strings.Byte.
Import ListNotations.
Local Open Scope Z_scope.

(** ** Machine integers *)

Definition wrap64 (z : Z) : Z := z mod 2 ^ 64.
Definition int64_of (z : Z) : Z := (z + 2 ^ 63) mod 2 ^ 64 - 2 ^ 63.
Definition wrap8 (z : Z) : Z := z mod 2 ^ 8.
Definition int8_of (z : Z) : Z := (z + 2 ^ 7) mod 2 ^ 8 - 2 ^ 7.
Definition int16_of (z : Z) : Z := (z + 2 ^ 15) mod 2 ^ 16 - 2 ^ 15.

(** [x << s] on a 64-bit operand: Go yields 0 once the count reaches the
    width. *)
Definition shl64 (x s : Z) : Z :=
  if s <? 64 then wrap64 (Z.shiftl x s) else 0.

Definition u8 (b : byte) : Z := Z.of_N (Byte.to_N b).

Definition byte_of_Z (z : Z) : byte :=
  match Byte.of_N (Z.to_N (wrap8 z)) with
  | Some b => b
  | None => x00
  end.

(** ** Errors and results *)

Inductive error : Type :=
| EOF                                   (* io.EOF *)
| ErrUnexpectedEOF                      (* io.ErrUnexpectedEOF *)
| ErrEntryTooShort                      (* "dwarf/unwind: entry too short" *)
| ErrFDETooShort                        (* "... frame description entry too short" *)
| ErrFrameDataNoPc                      (* "... frame data didn't include pc" *)
| ErrNoCIE (id : Z)                     (* "... No CommonInformationEntry found at ..." *)
| ErrUnsupportedVersion (version : Z)   (* "... unsupported dwarf version: %x" *)
| ErrUnhandledAugmentation              (* "... unhandled dwarf augmentation" *)
| ErrUnsupportedCFAOp (instruction : Z) (* "Unsuported CFA op: %x" *)
| ErrUnknownOpcode (instruction : Z)    (* "dwarf/unwind: unknown op-code: %x" *)
| ErrInvalidLocList                     (* "Invalid location list" *)
| ErrUnsupportedLocOp.                  (* "Unsupported location OP" *)

Inductive result (A : Type) : Type :=
| OK (a : A)
| Err (e : error).
Arguments OK {A} a.
Arguments Err {A} e.

Definition bind {A B : Type} (r : result A) (f : A -> result B) : result B :=
  match r with
  | OK a => f a
  | Err e => Err e
  end.

Notation "' p <- e ;; k" := (bind e (fun p => k))
  (at level 61, p pattern, e at next level, right associativity).

(** ** bytes.Reader *)

Definition Reader : Type := list byte.

Definition ReadByte (stream : Reader) : result (byte * Reader) :=
  match stream with
  | [] => Err EOF
  | b :: stream' => OK (b, stream')
  end.

(** [stream.Read(buf)] with [len(buf) = n]: end-of-file when nothing is
    left, otherwise as many bytes as there are; [buf] was zero-filled by
    [make], so a short read leaves zeros behind. *)
Definition Reader_Read (n : nat) (stream : Reader) : result (list byte * Reader) :=
  match stream with
  | [] => Err EOF
  | _ :: _ =>
      let got := firstn n stream in
      OK (got ++ repeat x00 (n - length got), skipn n stream)
  end.

(** [stream.Seek(off, 1)] with [0 <= off]. *)
Definition Seek_cur (off : Z) (stream : Reader) : Reader :=
  skipn (Z.to_nat off) stream.

(** [io.ReadFull] as [binary.Read] uses it for a fixed-size value. *)
Definition ReadFull (n : nat) (stream : Reader) : result (list byte * Reader) :=
  match stream with
  | [] => Err EOF
  | _ :: _ =>
      if (length stream <? n)%nat then Err ErrUnexpectedEOF
      else OK (firstn n stream, skipn n stream)
  end.

Inductive ByteOrder : Type := LittleEndian | BigEndian.

Fixpoint le_uint (bs : list byte) : Z :=
  match bs with
  | [] => 0
  | b :: bs' => u8 b + 256 * le_uint bs'
  end.

Definition order_uint (order : ByteOrder) (bs : list byte) : Z :=
  match order with
  | LittleEndian => le_uint bs
  | BigEndian => le_uint (rev bs)
  end.

Definition binary_Read_uint32 (order : ByteOrder) (stream : Reader)
  : result (Z * Reader) :=
  ' (bs, stream') <- ReadFull 4 stream ;; OK (order_uint order bs, stream').

Definition binary_Read_uint64 (order : ByteOrder) (stream : Reader)
  : result (Z * Reader) :=
  ' (bs, stream') <- ReadFull 8 stream ;; OK (order_uint order bs, stream').

Definition binary_Read_int8 (order : ByteOrder) (stream : Reader)
  : result (Z * Reader) :=
  ' (bs, stream') <- ReadFull 1 stream ;;
  OK (int8_of (order_uint order bs), stream').

Definition binary_Read_int16 (order : ByteOrder) (stream : Reader)
  : result (Z * Reader) :=
  ' (bs, stream') <- ReadFull 2 stream ;;
  OK (int16_of (order_uint order bs), stream').

(** ** loclist.go: LEB128 *)

Definition dw_LEB_EXTENSION : Z := 0x80.
Definition dw_LEB_BITS : Z := Z.lxor 0xff dw_LEB_EXTENSION.

(** The loop shared by the two decoders: state [n], [shift]. *)
Fixpoint leb128_loop (stream : Reader) (n shift : Z) : result (Z * Z * Reader) :=
  match stream with
  | [] => Err EOF
  | b :: stream' =>
      let n' := Z.lor (shl64 (Z.land (u8 b) dw_LEB_BITS) shift) n in
      let shift' := wrap64 (shift + 7) in
      if Z.land (u8 b) dw_LEB_EXTENSION =? 0
      then OK (n', shift', stream')
      else leb128_loop stream' n' shift'
  end.

Definition parseSignedLEB128 (stream : Reader) : result (Z * Reader) :=
  ' (n, shift, stream') <- leb128_loop stream 0 0 ;;
  let m := int64_of n in
  if negb (Z.land n (shl64 1 (wrap64 (shift - 1))) =? 0)
  then OK (int64_of (int64_of n - int64_of (shl64 1 shift)), stream')
  else OK (m, stream').

Definition parseUnsignedLEB128 (stream : Reader) : result (Z * Reader) :=
  ' (n, _, stream') <- leb128_loop stream 0 0 ;; OK (n, stream').


(** ** Loops

    One iteration of a [for] loop either goes round again with a new state,
    leaves the loop ([break]) or returns an error.  A computation that
    iterates over fuel is [None] when the fuel is used up; this is not a
    behaviour of the program, and the totality lemmas exclude it at the
    entry points. *)

Inductive step (S : Type) : Type :=
| Continue (s : S)
| Break
| Fail (e : error).
Arguments Continue {S} s.
Arguments Break {S}.
Arguments Fail {S} e.

Definition M (A : Type) : Type := option (result A).

Definition lift {A : Type} (r : result A) : M A := Some r.

Definition bindM {A B : Type} (m : M A) (f : A -> M B) : M B :=
  match m with
  | None => None
  | Some (Err e) => Some (Err e)
  | Some (OK a) => f a
  end.

Notation "' p <-- e ;; k" := (bindM e (fun p => k))
  (at level 61, p pattern, e at next level, right associativity).

(** ** loclist.go: parseLocList *)

Record locInfo : Type := { CanonicalFrameAddress : Z }.

Definition dw_OP_consts : Z := 0x11.
Definition dw_OP_plus : Z := 0x22.
Definition dw_OP_call_frame_cfa : Z := 0x9c.

(** The body of the loop of [parseLocList]; [stack] grows at its end, as
    the Go slice does under [append]. *)
Definition parseLocList_step (info : locInfo) (stack : list Z) (stream : Reader)
  : step (list Z * Reader) :=
  match ReadByte stream with
  | Err EOF => Break
  | Err e => Fail e
  | OK (instruction, stream) =>
      if u8 instruction =? dw_OP_consts then
        match parseSignedLEB128 stream with
        | Err e => Fail e
        | OK (n, stream) => Continue (stack ++ [n], stream)
        end
      else if u8 instruction =? dw_OP_plus then
        if (length stack <? 2)%nat then Fail ErrInvalidLocList
        else
          let a := nth (length stack - 1) stack 0 in
          let b := nth (length stack - 2) stack 0 in
          Continue (firstn (length stack - 2) stack ++ [int64_of (a + b)], stream)
      else if u8 instruction =? dw_OP_call_frame_cfa then
        Continue (stack ++ [int64_of (CanonicalFrameAddress info)], stream)
      else Fail ErrUnsupportedLocOp
  end.

(** The loop, up to its [break]: the stack it leaves. *)
Fixpoint parseLocList_loop (fuel : nat) (info : locInfo) (stack : list Z)
  (stream : Reader) : M (list Z) :=
  match fuel with
  | O => None
  | S fuel =>
      match parseLocList_step info stack stream with
      | Continue (stack', stream') => parseLocList_loop fuel info stack' stream'
      | Break => Some (OK stack)
      | Fail e => Some (Err e)
      end
  end.

Definition parseLocList (locList : list byte) (info : locInfo) : M Z :=
  ' stack <-- parseLocList_loop (S (length locList)) info [] locList ;;
  if (length stack =? 1)%nat then Some (OK (wrap64 (nth 0 stack 0)))
  else Some (Err ErrInvalidLocList).

(** ** unwind.go *)

Definition dw_CFA_nop : Z := 0x00.
Definition dw_CFA_advance_loc1 : Z := 0x02.
Definition dw_CFA_advance_loc2 : Z := 0x03.
Definition dw_CFA_def_cfa : Z := 0x0c.
Definition dw_CFA_def_cfa_offset_sf : Z := 0x13.
Definition dw_CFA_advance_loc : Z := Z.shiftl 0x1 6.
Definition dw_CFA_offset : Z := Z.shiftl 0x2 6.

Record CommonInformationEntry : Type := {
  CodeAlignmentFactor : Z;   (* uintptr *)
  DataAlignmentFactor : Z;   (* int64 *)
  ReturnColumn : byte;
  InitialLocation : Z;       (* uintptr *)
  AddressRange : Z;          (* uintptr *)
  Instructions : list byte;
  StackRegister : Z;         (* uint64 *)
  StackOffset : Z;           (* int64 *)
  ColumnValue : Z;           (* int64 *)
  cie_order : ByteOrder
}.

Record Data : Type := {
  frame : list byte;
  order : ByteOrder
}.

(** Assignments to the fields of a [*CommonInformationEntry]. *)
Definition set_def_cfa (cie : CommonInformationEntry) (reg val : Z)
  : CommonInformationEntry :=
  {| CodeAlignmentFactor := CodeAlignmentFactor cie;
     DataAlignmentFactor := DataAlignmentFactor cie;
     ReturnColumn := ReturnColumn cie;
     InitialLocation := InitialLocation cie;
     AddressRange := AddressRange cie;
     Instructions := Instructions cie;
     StackRegister := reg;
     StackOffset := val;
     ColumnValue := ColumnValue cie;
     cie_order := cie_order cie |}.

Definition set_ColumnValue (cie : CommonInformationEntry) (v : Z)
  : CommonInformationEntry :=
  {| CodeAlignmentFactor := CodeAlignmentFactor cie;
     DataAlignmentFactor := DataAlignmentFactor cie;
     ReturnColumn := ReturnColumn cie;
     InitialLocation := InitialLocation cie;
     AddressRange := AddressRange cie;
     Instructions := Instructions cie;
     StackRegister := StackRegister cie;
     StackOffset := StackOffset cie;
     ColumnValue := v;
     cie_order := cie_order cie |}.

(** The four assignments [Data.CanonicalFrameAddress] makes on the entry it
    has loaded. *)
Definition bind_fde (cie : CommonInformationEntry) (pcstart pccount : Z)
  (instructions : list byte) (o : ByteOrder) : CommonInformationEntry :=
  {| CodeAlignmentFactor := CodeAlignmentFactor cie;
     DataAlignmentFactor := DataAlignmentFactor cie;
     ReturnColumn := ReturnColumn cie;
     InitialLocation := pcstart;
     AddressRange := pccount;
     Instructions := instructions;
     StackRegister := StackRegister cie;
     StackOffset := StackOffset cie;
     ColumnValue := ColumnValue cie;
     cie_order := o |}.

(** The body of the loop of [Update]: [OK] goes round again, [Err] is the
    error the method returns.  The [switch] tries its cases in order. *)
Definition Update_step (cie : CommonInformationEntry) (stream : Reader)
  : result (CommonInformationEntry * Reader) :=
  ' (instruction, stream) <- ReadByte stream ;;
  if u8 instruction =? dw_CFA_def_cfa then
    ' (reg, stream) <- parseUnsignedLEB128 stream ;;
    ' (val, stream) <- parseUnsignedLEB128 stream ;;
    OK (set_def_cfa cie reg (int64_of val), stream)
  else if u8 instruction =? dw_CFA_nop then
    OK (cie, stream)
  else if u8 instruction =? wrap8 (dw_CFA_offset + u8 (ReturnColumn cie)) then
    ' (raw, stream) <- parseSignedLEB128 stream ;;
    OK (set_ColumnValue cie (int64_of (raw * DataAlignmentFactor cie)), stream)
  else Err (ErrUnsupportedCFAOp (u8 instruction)).

(** [Update] only ever returns an error; the entry it was called on keeps
    the assignments made before. *)
Fixpoint CommonInformationEntry_Update (fuel : nat) (cie : CommonInformationEntry)
  (stream : Reader) : option (CommonInformationEntry * error) :=
  match fuel with
  | O => None
  | S fuel =>
      match Update_step cie stream with
      | OK (cie', stream') => CommonInformationEntry_Update fuel cie' stream'
      | Err e => Some (cie, e)
      end
  end.

Definition new_CommonInformationEntry (codeAlignment dataAlignment : Z)
  (returnColumn : byte) : CommonInformationEntry :=
  {| CodeAlignmentFactor := codeAlignment;
     DataAlignmentFactor := dataAlignment;
     ReturnColumn := returnColumn;
     InitialLocation := 0;
     AddressRange := 0;
     Instructions := [];
     StackRegister := 0;
     StackOffset := 0;
     ColumnValue := 0;
     cie_order := LittleEndian |}.

Definition Data_parseCommonInformationEntry (d : Data) (id : Z)
  : M CommonInformationEntry :=
  let stream := skipn (Z.to_nat id) (frame d) in
  ' (length, stream) <-- lift (binary_Read_uint32 (order d) stream) ;;
  ' (entry, _) <-- lift (Reader_Read (Z.to_nat length) stream) ;;
  let stream := entry in
  ' (mark, stream) <-- lift (binary_Read_uint32 (order d) stream) ;;
  if (length <? 4) || negb (mark =? 0xFFFFFFFF) then Some (Err (ErrNoCIE id))
  else
    ' (version, stream) <-- lift (ReadByte stream) ;;
    if negb (u8 version =? 3) then Some (Err (ErrUnsupportedVersion (u8 version)))
    else
      ' (augmentation, stream) <-- lift (ReadByte stream) ;;
      if negb (u8 augmentation =? 0) then Some (Err ErrUnhandledAugmentation)
      else
        ' (codeAlignment, stream) <-- lift (parseUnsignedLEB128 stream) ;;
        ' (dataAlignment, stream) <-- lift (parseSignedLEB128 stream) ;;
        ' (returnColumn, stream) <-- lift (ReadByte stream) ;;
        let cie := new_CommonInformationEntry codeAlignment dataAlignment returnColumn in
        match CommonInformationEntry_Update (S (List.length stream)) cie stream with
        | None => None
        | Some (cie, EOF) => Some (OK cie)
        | Some (_, err) => Some (Err err)
        end.

(** The body of the loop of [CommonInformationEntry.CanonicalFrameAddress];
    the state is [loc], [offset] and the reader. *)
Definition CanonicalFrameAddress_step (cie : CommonInformationEntry) (pc : Z)
  (loc offset : Z) (stream : Reader) : step (Z * Z * Reader) :=
  match ReadByte stream with
  | Err EOF => Break
  | Err e => Fail e
  | OK (instruction, stream) =>
      if u8 instruction =? dw_CFA_def_cfa_offset_sf then
        match parseSignedLEB128 stream with
        | Err e => Fail e
        | OK (delta, stream) =>
            Continue (loc, int64_of (delta * DataAlignmentFactor cie), stream)
        end
      else if loc >? pc then Break
      else if u8 instruction =? dw_CFA_advance_loc1 then
        match binary_Read_int8 (cie_order cie) stream with
        | Err e => Fail e
        | OK (delta, stream) =>
            Continue (wrap64 (loc + wrap64 (wrap64 delta * CodeAlignmentFactor cie)),
                      offset, stream)
        end
      else if u8 instruction =? dw_CFA_advance_loc2 then
        match binary_Read_int16 (cie_order cie) stream with
        | Err e => Fail e
        | OK (delta, stream) =>
            Continue (wrap64 (loc + wrap64 (wrap64 delta * CodeAlignmentFactor cie)),
                      offset, stream)
        end
      else if (dw_CFA_advance_loc <=? u8 instruction) && (u8 instruction <=? 0x80) then
        Continue (wrap64 (loc + wrap64 (wrap8 (u8 instruction - 0x40)
                                        * CodeAlignmentFactor cie)),
                  offset, stream)
      else Fail (ErrUnknownOpcode (u8 instruction))
  end.

(** The loop, up to its [break]: the offset in effect. *)
Fixpoint CanonicalFrameAddress_loop (fuel : nat) (cie : CommonInformationEntry)
  (pc : Z) (loc offset : Z) (stream : Reader) : M Z :=
  match fuel with
  | O => None
  | S fuel =>
      match CanonicalFrameAddress_step cie pc loc offset stream with
      | Continue (loc', offset', stream') =>
          CanonicalFrameAddress_loop fuel cie pc loc' offset' stream'
      | Break => Some (OK offset)
      | Fail e => Some (Err e)
      end
  end.

Definition CommonInformationEntry_CanonicalFrameAddress
  (cie : CommonInformationEntry) (pc sp : Z) : M Z :=
  ' offset <-- CanonicalFrameAddress_loop (S (length (Instructions cie))) cie pc
                 (InitialLocation cie) (StackOffset cie) (Instructions cie) ;;
  Some (OK (wrap64 (int64_of (int64_of sp + offset)))).

(** The scan of [Data.CanonicalFrameAddress].  Its [for] has no [break]:
    every exit is a [return] inside the body, and the [return] that follows
    the loop in the source is never reached. *)
Fixpoint Data_CanonicalFrameAddress_loop (fuel : nat) (d : Data) (pc sp : Z)
  (stream : Reader) : M Z :=
  match fuel with
  | O => None
  | S fuel =>
      ' (length, stream) <-- lift (binary_Read_uint32 (order d) stream) ;;
      if length <? 4 then Some (Err ErrEntryTooShort)
      else
        ' (id, stream) <-- lift (binary_Read_uint32 (order d) stream) ;;
        if id =? 0xFFFFFFFF then
          Data_CanonicalFrameAddress_loop fuel d pc sp (Seek_cur (length - 4) stream)
        else if length <? 20 then Some (Err ErrFDETooShort)
        else
          ' (pcstart, stream) <-- lift (binary_Read_uint64 (order d) stream) ;;
          ' (pccount, stream) <-- lift (binary_Read_uint64 (order d) stream) ;;
          if (pcstart <=? pc) && (pc <? wrap64 (pcstart + pccount)) then
            ' cie <-- Data_parseCommonInformationEntry d id ;;
            ' (instructions, _) <-- lift (Reader_Read (Z.to_nat (length - 20)) stream) ;;
            CommonInformationEntry_CanonicalFrameAddress
              (bind_fde cie pcstart pccount instructions (order d)) pc sp
          else
            Data_CanonicalFrameAddress_loop fuel d pc sp (Seek_cur (length - 20) stream)
  end.

Definition Data_CanonicalFrameAddress (d : Data) (pc sp : Z) : M Z :=
  Data_CanonicalFrameAddress_loop (S (length (frame d))) d pc sp (frame d).

(** ** Definitions used to state the properties *)

(** The 7-bit groups a decoder consumes from [stream], first group first,
    up to and including the first byte whose continuation bit is clear, and
    what follows them; [None] when no such byte comes. *)
Fixpoint leb_groups (stream : Reader) : option (list Z * Reader) :=
  match stream with
  | [] => None
  | b :: stream' =>
      if Z.land (u8 b) 0x80 =? 0 then Some ([Z.land (u8 b) 0x7f], stream')
      else
        match leb_groups stream' with
        | Some (gs, rest) => Some (Z.land (u8 b) 0x7f :: gs, rest)
        | None => None
        end
  end.

(** [groups_sum i [g_i; g_(i+1); ...]] is the sum of the [g_j * 2^(7*j)]. *)
Fixpoint groups_sum (i : Z) (gs : list Z) : Z :=
  match gs with
  | [] => 0
  | g :: gs' => g * 2 ^ (7 * i) + groups_sum (i + 1) gs'
  end.

(** The signed LEB128 encoder of the DWARF standard, which the round-trip
    property of the specification refers to (the package only decodes):
    emit the low seven bits, shift arithmetically, stop when what remains is
    the sign extension of the group just emitted.  Ten groups cover every
    64-bit value. *)
Fixpoint encodeSigned_groups (fuel : nat) (value : Z) : list byte :=
  match fuel with
  | O => []
  | S fuel =>
      let b := Z.land value 0x7f in
      let value' := Z.shiftr value 7 in
      if ((value' =? 0) && (Z.land b 0x40 =? 0))
         || ((value' =? -1) && negb (Z.land b 0x40 =? 0))
      then [byte_of_Z b]
      else byte_of_Z (Z.lor b 0x80) :: encodeSigned_groups fuel value'
  end.

Definition encodeSigned (value : Z) : list byte := encodeSigned_groups 10 value.

(** The region of the worked example: one CIE (version 3, no augmentation,
    code alignment 1, data alignment -8, return column 16, initial
    instruction def_cfa(r7, 8)) at offset 0, and one FDE for
    [0x2000, 0x2100) with instructions advance_loc(0x23),
    def_cfa_offset_sf(2). *)
Definition example_cie : list byte :=
  [x0c; x00; x00; x00;  xff; xff; xff; xff;
   x03; x00; x01; x78; x10;
   x0c; x07; x08].

Definition example_fde : list byte :=
  [x17; x00; x00; x00;  x00; x00; x00; x00;
   x00; x20; x00; x00; x00; x00; x00; x00;
   x00; x01; x00; x00; x00; x00; x00; x00;
   x63; x13; x02].

Definition example_data : Data :=
  {| frame := example_cie ++ example_fde; order := LittleEndian |}.

(** A CIE whose initial instructions stop inside def_cfa: the register
    operand is there, the offset operand is not. *)
Definition truncated_cie : list byte :=
  [x0b; x00; x00; x00;  xff; xff; xff; xff;
   x03; x00; x01; x78; x10;
   x0c; x07].

(** An entry bound to an FDE at [loc] with the given instructions. *)
Definition working_entry (loc offset : Z) (instructions : list byte)
  : CommonInformationEntry :=
  {| CodeAlignmentFactor := 1;
     DataAlignmentFactor := -8;
     ReturnColumn := x10;
     InitialLocation := loc;
     AddressRange := 0x100;
     Instructions := instructions;
     StackRegister := 7;
     StackOffset := offset;
     ColumnValue := 0;
     cie_order := LittleEndian |}.

(** The state of the replay kept in the entry itself: [loc] is read from
    [InitialLocation], [offset] from [StackOffset], the reader from
    [Instructions]. *)
Definition with_replay_state (cie : CommonInformationEntry) (loc offset : Z)
  (instructions : list byte) : CommonInformationEntry :=
  {| CodeAlignmentFactor := CodeAlignmentFactor cie;
     DataAlignmentFactor := DataAlignmentFactor cie;
     ReturnColumn := ReturnColumn cie;
     InitialLocation := loc;
     AddressRange := AddressRange cie;
     Instructions := instructions;
     StackRegister := StackRegister cie;
     StackOffset := offset;
     ColumnValue := ColumnValue cie;
     cie_order := cie_order cie |}.

(** What [CommonInformationEntry.CanonicalFrameAddress] returns when its
    loop ends with [offset] in effect. *)
Definition replay_result (sp offset : Z) : M Z :=
  Some (OK (wrap64 (int64_of (int64_of sp + offset)))).

(** The frame descriptions of a region, as the record layout delimits
    them: the initial location and the address range of every record that
    is not a bare CIE, in the order of the region, up to the first record
    that cannot be read. *)
Fixpoint frame_descriptions (fuel : nat) (o : ByteOrder) (stream : Reader)
  : list (Z * Z) :=
  match fuel with
  | O => []
  | S fuel =>
      match binary_Read_uint32 o stream with
      | Err _ => []
      | OK (length, stream) =>
          if length <? 4 then []
          else
            match binary_Read_uint32 o stream with
            | Err _ => []
            | OK (id, stream) =>
                if id =? 0xFFFFFFFF then
                  frame_descriptions fuel o (Seek_cur (length - 4) stream)
                else if length <? 20 then []
                else
                  match binary_Read_uint64 o stream with
                  | Err _ => []
                  | OK (pcstart, stream) =>
                      match binary_Read_uint64 o stream with
                      | Err _ => []
                      | OK (pccount, stream) =>
                          (pcstart, pccount)
                          :: frame_descriptions fuel o (Seek_cur (length - 20) stream)
                      end
                  end
            end
      end
  end.

(** The errors of the scan itself: of the reader and of the record
    layout. *)
Definition scan_error (e : error) : Prop :=
  e = EOF \/ e = ErrUnexpectedEOF \/ e = ErrEntryTooShort \/ e = ErrFDETooShort.

(** ** entry.go

    [Entry], [Field], [Attr] and [AttrLocation] are declared in the part of
    the package taken over from debug/dwarf, which is not among the sources
    read here.  Of an [Entry] the two methods use the [Field] slice only; a
    [Field] is an attribute and a value of type [interface{}], of which the
    methods ask whether it is nil and whether its dynamic type is [[]byte];
    [AttrLocation] is the attribute number 0x02 of DWARF. *)

Definition Attr : Type := Z.

Definition AttrLocation : Attr := 0x02.

Inductive interface_value : Type :=
| Nil                          (* the nil interface *)
| Bytes (b : list byte)        (* dynamic type []byte *)
| Other (v : Z).               (* any other dynamic type *)

Record Field : Type := {
  Field_Attr : Attr;
  Field_Val : interface_value
}.

Record Entry : Type := { Entry_Field : list Field }.

(** The [range] loop of [Attribute]. *)
Fixpoint Attribute_loop (fields : list Field) (attr : Attr) : interface_value :=
  match fields with
  | [] => Nil
  | f :: fields' =>
      if Field_Attr f =? attr then Field_Val f else Attribute_loop fields' attr
  end.

Definition Entry_Attribute (entry : Entry) (attr : Attr) : interface_value :=
  Attribute_loop (Entry_Field entry) attr.

(** The errors of [Location]: its own, "No AttrLocation in Entry", and
    those of [parseLocList]. *)
Inductive Location_error : Type :=
| ErrNoAttrLocation
| ErrLocList (e : error).

Definition Entry_Location (entry : Entry) (cfa : Z) : option (Z + Location_error) :=
  match Entry_Attribute entry AttrLocation with
  | Bytes loclist =>
      match parseLocList loclist {| CanonicalFrameAddress := cfa |} with
      | None => None
      | Some (OK addr) => Some (inl addr)
      | Some (Err e) => Some (inr (ErrLocList e))
      end
  | _ => Some (inr ErrNoAttrLocation)
  end.

(** ** Further definitions used to state properties *)

(** The unsigned LEB128 encoder of the DWARF standard (the package only
    decodes): emit the low seven bits, shift, stop when nothing remains.
    Ten groups cover every 64-bit value. *)
Fixpoint encodeUnsigned_groups (fuel : nat) (value : Z) : list byte :=
  match fuel with
  | O => []
  | S fuel =>
      let b := Z.land value 0x7f in
      let value' := Z.shiftr value 7 in
      if value' =? 0 then [byte_of_Z b]
      else byte_of_Z (Z.lor b 0x80) :: encodeUnsigned_groups fuel value'
  end.

Definition encodeUnsigned (value : Z) : list byte := encodeUnsigned_groups 10 value.

(** The three operations of a location expression, their encoding, and what
    they do to a stack whose top is the head of the list; [None] is an
    addition that finds fewer than two entries. *)
Inductive locop : Type :=
| OpConsts (n : Z)
| OpPlus
| OpCallFrameCFA.

Definition encode_op (op : locop) : list byte :=
  match op with
  | OpConsts n => x11 :: encodeSigned n
  | OpPlus => [x22]
  | OpCallFrameCFA => [x9c]
  end.

Definition encode_ops (ops : list locop) : list byte := flat_map encode_op ops.

Definition exec_op (cfa : Z) (op : locop) (st : list Z) : option (list Z) :=
  match op with
  | OpConsts n => Some (n :: st)
  | OpPlus =>
      match st with
      | a :: b :: st' => Some (int64_of (a + b) :: st')
      | _ => None
      end
  | OpCallFrameCFA => Some (int64_of cfa :: st)
  end.

Fixpoint exec_ops (cfa : Z) (ops : list locop) (st : list Z) : option (list Z) :=
  match ops with
  | [] => Some st
  | op :: ops' =>
      match exec_op cfa op st with
      | Some st' => exec_ops cfa ops' st'
      | None => None
      end
  end.

Definition const_in_range (op : locop) : Prop :=
  match op with
  | OpConsts n => - 2 ^ 63 <= n < 2 ^ 63
  | _ => True
  end.

Definition is_push (op : locop) : bool :=
  match op with
  | OpPlus => false
  | _ => true
  end.

Definition count_pushes (ops : list locop) : nat := length (filter is_push ops).

Definition count_plus (ops : list locop) : nat :=
  length (filter (fun op => negb (is_push op)) ops).

(** The instruction pairs of an FDE in the shape a linker emits them: an
    inline advance by [d] followed by def_cfa_offset_sf with operand [c]. *)
Definition encode_pair (p : Z * Z) : list byte :=
  byte_of_Z (0x40 + fst p) :: x13 :: encodeSigned (snd p).

Definition encode_pairs (pairs : list (Z * Z)) : list byte :=
  flat_map encode_pair pairs.

Definition pair_in_range (p : Z * Z) : Prop :=
  0 <= fst p <= 0x3f /\ - 2 ^ 63 <= snd p < 2 ^ 63.

(** The offset the replay ends with on such pairs, from [loc] and [offset]:
    the replay stops in front of the first advance it meets with
    [loc > pc]; until then every pair moves [loc] and replaces [offset]. *)
Fixpoint rule_in_effect (caf daf pc loc offset : Z) (pairs : list (Z * Z)) : Z :=
  match pairs with
  | [] => offset
  | (d, c) :: pairs' =>
      if loc >? pc then offset
      else rule_in_effect caf daf pc (wrap64 (loc + wrap64 (d * caf)))
             (int64_of (c * daf)) pairs'
  end.

(** Fixed-width unsigned integers in a byte order, as the records of the
    region hold them. *)
Fixpoint le_bytes (width : nat) (n : Z) : list byte :=
  match width with
  | O => []
  | S width => byte_of_Z n :: le_bytes width (n / 256)
  end.

Definition put_uint (o : ByteOrder) (width : nat) (n : Z) : list byte :=
  match o with
  | LittleEndian => le_bytes width n
  | BigEndian => rev (le_bytes width n)
  end.

(** A CIE record of version 3 without augmentation whose initial
    instructions are def_cfa(reg, off) followed by [pad] nops, and an FDE
    record that refers to the CIE at offset [id]. *)
Definition cie_body (caf daf : Z) (rc : byte) (reg off : Z) (pad : nat) : list byte :=
  [x03; x00] ++ encodeUnsigned caf ++ encodeSigned daf ++ [rc]
  ++ (x0c :: encodeUnsigned reg ++ encodeUnsigned off) ++ repeat x00 pad.

Definition cie_record (o : ByteOrder) (caf daf : Z) (rc : byte) (reg off : Z)
  (pad : nat) : list byte :=
  put_uint o 4 (4 + Z.of_nat (length (cie_body caf daf rc reg off pad)))
  ++ put_uint o 4 0xFFFFFFFF
  ++ cie_body caf daf rc reg off pad.

Definition fde_record (o : ByteOrder) (id pcstart pccount : Z)
  (instructions : list byte) : list byte :=
  put_uint o 4 (20 + Z.of_nat (length instructions))
  ++ put_uint o 4 id ++ put_uint o 8 pcstart ++ put_uint o 8 pccount
  ++ instructions.

(** ** Tactics *)

(** Case analysis on the scrutinee of a [match] in a hypothesis. *)
Ltac break_match_hyp :=
  match goal with
  | H : context [match ?x with _ => _ end] |- _ => destruct x eqn:?
  end.

Ltac inv H := inversion H; subst; clear H.

(** Evaluation of the closed parts of a goal about a concrete region. *)
Ltac eval_lift :=
  match goal with
  | |- context [lift ?r] =>
      let v := eval vm_compute in r in change (lift r) with (Some v)
  end; cbn [bindM].

Ltac eval_if :=
  match goal with
  | |- (if ?c then _ else _) = _ =>
      let v := eval vm_compute in c in change c with v
  end; cbv iota.

Ltac eval_seek :=
  match goal with
  | |- context [Seek_cur ?a ?b] =>
      let v := eval vm_compute in (Seek_cur a b) in change (Seek_cur a b) with v
  end.

(** * Properties *)

(** ** Bytes *)

Lemma u8_range (b : byte) : 0 <= u8 b < 256.
Proof.
  unfold u8. pose proof (Byte.to_N_bounded b) as H.
  change 256 with (Z.of_N 256). lia.
Qed.

Lemma u8_byte_of_Z (z : Z) : 0 <= z < 256 -> u8 (byte_of_Z z) = z.
Proof.
  intros Hz. unfold byte_of_Z, wrap8.
  rewrite Z.mod_small by (change (2 ^ 8) with 256; lia).
  destruct (Byte.of_N (Z.to_N z)) as [b|] eqn:E.
  - apply Byte.to_of_N in E. unfold u8. rewrite E. lia.
  - apply Byte.of_N_None_iff in E. lia.
Qed.

Lemma byte_ext_bit (b : byte) :
  (Z.land (u8 b) 0x80 =? 0) = (u8 b <? 128).
Proof. destruct b; reflexivity. Qed.

Lemma byte_low_bits (b : byte) : Z.land (u8 b) 0x7f = u8 b mod 128.
Proof. destruct b; reflexivity. Qed.

(** ** Bit arithmetic of the decoding loop *)

Lemma shl64_mod (g s : Z) : 0 <= s -> shl64 g s = (g * 2 ^ s) mod 2 ^ 64.
Proof.
  intros Hs. unfold shl64, wrap64. destruct (s <? 64) eqn:E.
  - now rewrite Z.shiftl_mul_pow2 by lia.
  - apply Z.ltb_ge in E. symmetry.
    replace s with ((s - 64) + 64) by lia.
    rewrite Z.pow_add_r, Z.mul_assoc by lia.
    apply Z.mod_mul. lia.
Qed.

Lemma testbit_small (x s n : Z) :
  0 <= x < 2 ^ s -> s <= n -> Z.testbit x n = false.
Proof.
  intros Hx Hn.
  destruct (Z.eq_dec x 0) as [->|Hx0]; [apply Z.bits_0|].
  apply Z.bits_above_log2; [lia|].
  assert (0 <= s) by (destruct (Z.le_gt_cases 0 s); [lia|];
                      rewrite Z.pow_neg_r in Hx; lia).
  assert (Z.log2 x < s) by (apply Z.log2_lt_pow2; lia).
  lia.
Qed.

Lemma lor_disjoint (g x s : Z) :
  0 <= s -> 0 <= x < 2 ^ s -> Z.lor (g * 2 ^ s) x = g * 2 ^ s + x.
Proof.
  intros Hs Hx.
  assert (D : Z.land (g * 2 ^ s) x = 0).
  { apply Z.bits_inj'. intros n Hn.
    rewrite Z.land_spec, Z.bits_0, <- Z.shiftl_mul_pow2 by lia.
    destruct (Z.ltb_spec n s).
    - now rewrite Z.shiftl_spec_low.
    - rewrite (testbit_small x s n) by lia. apply andb_false_r. }
  now rewrite <- Z.lxor_lor, <- Z.add_nocarry_lxor.
Qed.

Lemma lor_mod64 (a b : Z) :
  Z.lor (a mod 2 ^ 64) (b mod 2 ^ 64) = Z.lor a b mod 2 ^ 64.
Proof.
  rewrite <- !Z.land_ones by lia. symmetry. apply Z.land_lor_distr_l.
Qed.

Lemma accumulate_group (g x s : Z) :
  0 <= s -> 0 <= x < 2 ^ s ->
  Z.lor (shl64 g s) (x mod 2 ^ 64) = (x + g * 2 ^ s) mod 2 ^ 64.
Proof.
  intros Hs Hx.
  rewrite shl64_mod, lor_mod64, lor_disjoint by assumption.
  f_equal. lia.
Qed.

Lemma land_pow2_eqb (n j : Z) :
  0 <= j -> 0 <= n < 2 ^ (j + 1) -> (Z.land n (2 ^ j) =? 0) = (n <? 2 ^ j).
Proof.
  intros Hj Hn. destruct (Z.ltb_spec n (2 ^ j)) as [Hlt|Hge].
  - apply Z.eqb_eq, Z.bits_inj'. intros m Hm.
    rewrite Z.land_spec, Z.bits_0, Z.pow2_bits_eqb by lia.
    destruct (Z.eqb_spec j m) as [->|_]; [|apply andb_false_r].
    now rewrite (testbit_small n m m) by lia.
  - apply Z.eqb_neq. intros E.
    assert (B : Z.testbit (Z.land n (2 ^ j)) j = true).
    { rewrite Z.land_spec, Z.pow2_bits_true, andb_true_r by lia.
      apply Z.testbit_true; [lia|].
      rewrite Z.pow_add_r, Z.pow_1_r in Hn by lia.
      assert (n / 2 ^ j = 1) as ->; [|reflexivity].
      symmetry. apply (Z.div_unique n (2 ^ j) 1 (n - 2 ^ j)); lia. }
    rewrite E, Z.bits_0 in B. discriminate.
Qed.

(** ** The groups a decoder consumes *)

Lemma groups_sum_shift (gs : list Z) :
  forall i j, 0 <= i -> 0 <= j ->
  groups_sum (i + j) gs = 2 ^ (7 * i) * groups_sum j gs.
Proof.
  induction gs as [|g gs IH]; intros i j Hi Hj; cbn [groups_sum].
  - lia.
  - replace (i + j + 1) with (i + (j + 1)) by lia.
    rewrite IH by lia.
    replace (7 * (i + j)) with (7 * i + 7 * j) by lia.
    rewrite Z.pow_add_r by lia. ring.
Qed.

Lemma groups_sum_app (gs hs : list Z) :
  forall i, groups_sum i (gs ++ hs)
            = groups_sum i gs + groups_sum (i + Z.of_nat (length gs)) hs.
Proof.
  induction gs as [|g gs IH]; intros i; cbn [groups_sum length app].
  - rewrite Z.add_0_r. reflexivity.
  - rewrite IH. replace (i + 1 + Z.of_nat (length gs))
      with (i + Z.of_nat (S (length gs))) by lia. lia.
Qed.

Lemma leb_groups_range (stream : Reader) :
  forall gs rest, leb_groups stream = Some (gs, rest) ->
  Forall (fun g => 0 <= g < 128) gs.
Proof.
  induction stream as [|b stream IH]; intros gs rest H; simpl in H.
  - discriminate.
  - assert (R : 0 <= Z.land (u8 b) 0x7f < 128)
      by (rewrite byte_low_bits; apply Z.mod_pos_bound; lia).
    destruct (Z.land (u8 b) 128 =? 0).
    + injection H as <- <-. now constructor.
    + destruct (leb_groups stream) as [[gs' rest']|]; [|discriminate].
      injection H as <- <-. constructor; [assumption|]. now apply (IH gs' rest').
Qed.

Lemma leb_groups_length (stream : Reader) :
  forall gs rest, leb_groups stream = Some (gs, rest) ->
  (length stream = length gs + length rest)%nat /\ (0 < length gs)%nat.
Proof.
  induction stream as [|b stream IH]; intros gs rest H; simpl in H.
  - discriminate.
  - destruct (Z.land (u8 b) 128 =? 0).
    + injection H as <- <-. simpl. lia.
    + destruct (leb_groups stream) as [[gs' rest']|]; [|discriminate].
      injection H as <- <-. destruct (IH gs' rest' eq_refl). simpl. lia.
Qed.

Lemma groups_sum_bound (gs : list Z) :
  Forall (fun g => 0 <= g < 128) gs ->
  forall i, 0 <= i ->
  0 <= groups_sum i gs
  /\ 2 ^ (7 * i) + groups_sum i gs <= 2 ^ (7 * (i + Z.of_nat (length gs))).
Proof.
  induction 1 as [|g gs Hg _ IH]; intros i Hi.
  - cbn [groups_sum length]. rewrite !Z.add_0_r. lia.
  - cbn [groups_sum length].
    destruct (IH (i + 1)) as [IH1 IH2]; [lia|].
    replace (i + Z.of_nat (S (length gs))) with (i + 1 + Z.of_nat (length gs)) by lia.
    replace (7 * (i + 1)) with (7 * i + 7) in IH2 by lia.
    rewrite Z.pow_add_r in IH2 by lia. change (2 ^ 7) with 128 in IH2.
    assert (0 < 2 ^ (7 * i)) by (apply Z.pow_pos_nonneg; lia).
    split; nia.
Qed.

(** What the loop computes from any state whose accumulator holds [x] below
    bit [7 * i]. *)
Lemma leb128_loop_groups (stream : Reader) :
  forall gs rest, leb_groups stream = Some (gs, rest) ->
  forall i x, 0 <= i -> 7 * (i + Z.of_nat (length gs)) < 2 ^ 64 ->
  0 <= x < 2 ^ (7 * i) ->
  leb128_loop stream (x mod 2 ^ 64) (7 * i)
  = OK ((x + groups_sum i gs) mod 2 ^ 64, 7 * (i + Z.of_nat (length gs)), rest).
Proof.
  induction stream as [|b stream IH]; intros gs rest H i x Hi Hlen Hx.
  - discriminate.
  - pose proof (leb_groups_length _ _ _ H) as [_ Hpos].
    cbn [leb_groups] in H. cbn [leb128_loop].
    change dw_LEB_BITS with 127. change dw_LEB_EXTENSION with 128.
    assert (R : 0 <= Z.land (u8 b) 127 < 128)
      by (rewrite byte_low_bits; apply Z.mod_pos_bound; lia).
    rewrite accumulate_group by lia.
    assert (W : wrap64 (7 * i + 7) = 7 * (i + 1)).
    { unfold wrap64. rewrite Z.mod_small; lia. }
    destruct (Z.land (u8 b) 128 =? 0).
    + injection H as <- <-. cbn [groups_sum length] in *. rewrite W.
      rewrite Z.add_0_r. reflexivity.
    + destruct (leb_groups stream) as [[gs' rest']|] eqn:G; [|discriminate].
      injection H as <- <-. cbn [length] in *. rewrite W.
      rewrite (IH gs' rest' eq_refl (i + 1)).
      * cbn [groups_sum].
        replace (7 * (i + 1 + Z.of_nat (length gs')))
          with (7 * (i + Z.of_nat (S (length gs')))) by lia.
        rewrite Z.add_assoc. reflexivity.
      * lia.
      * lia.
      * replace (7 * (i + 1)) with (7 * i + 7) by lia.
        rewrite Z.pow_add_r by lia. change (2 ^ 7) with 128. nia.
Qed.

(** ** The encoder *)

Lemma low7_land (v : Z) : Z.land v 0x7f = v mod 128.
Proof. change 127 with (Z.ones 7). now rewrite Z.land_ones by lia. Qed.

Lemma set_top_bit (b : Z) : 0 <= b < 128 -> Z.lor b 0x80 = b + 128.
Proof.
  intros Hb. rewrite Z.lor_comm. change 128 with (1 * 2 ^ 7) at 1.
  rewrite lor_disjoint by (change (2 ^ 7) with 128; lia).
  change (2 ^ 7) with 128. lia.
Qed.

Lemma sign_bit_of_group (b : Z) :
  0 <= b < 128 -> (Z.land b 0x40 =? 0) = (b <? 64).
Proof. intros Hb. apply (land_pow2_eqb b 6); [lia|exact Hb]. Qed.

Lemma encodeSigned_groups_spec (fuel : nat) :
  forall value rest,
  (0 < fuel)%nat ->
  - 2 ^ (7 * Z.of_nat fuel - 1) <= value < 2 ^ (7 * Z.of_nat fuel - 1) ->
  exists gs,
    leb_groups (encodeSigned_groups fuel value ++ rest) = Some (gs, rest)
    /\ (0 < length gs <= fuel)%nat
    /\ groups_sum 0 gs = value mod 2 ^ (7 * Z.of_nat (length gs))
    /\ - 2 ^ (7 * Z.of_nat (length gs) - 1) <= value
       < 2 ^ (7 * Z.of_nat (length gs) - 1).
Proof.
  induction fuel as [|fuel IH]; intros value rest Hfuel Hrange; [lia|].
  cbn [encodeSigned_groups].
  rewrite low7_land, Z.shiftr_div_pow2 by lia. change (2 ^ 7) with 128.
  assert (Hb : 0 <= value mod 128 < 128) by (apply Z.mod_pos_bound; lia).
  rewrite (sign_bit_of_group (value mod 128)) by exact Hb.
  destruct (((value / 128 =? 0) && (value mod 128 <? 64))
            || ((value / 128 =? -1) && negb (value mod 128 <? 64))) eqn:Stop.
  - (* the group just emitted carries the sign: one byte *)
    assert (Hsmall : -64 <= value < 64).
    { apply orb_true_iff in Stop.
      destruct Stop as [S|S]; apply andb_true_iff in S; destruct S as [S1 S2];
        apply Z.eqb_eq in S1;
        [apply Z.ltb_lt in S2 | apply negb_true_iff, Z.ltb_ge in S2];
        pose proof (Z.div_mod value 128); lia. }
    exists [value mod 128]. cbn [app leb_groups length groups_sum].
    rewrite byte_ext_bit, byte_low_bits, u8_byte_of_Z by lia.
    assert ((value mod 128 <? 128) = true) as -> by (apply Z.ltb_lt; lia).
    rewrite (Z.mod_small (value mod 128)) by lia.
    change (7 * Z.of_nat 1) with 7. change (2 ^ (7 * 0)) with 1.
    change (2 ^ 7) with 128. change (2 ^ (7 - 1)) with 64.
    repeat split; try reflexivity; lia.
  - (* more groups follow *)
    assert (Hbig : ~ (-64 <= value < 64)).
    { intros Hs. apply orb_false_iff in Stop. destruct Stop as [S1 S2].
      apply andb_false_iff in S1, S2.
      rewrite negb_false_iff in S2. rewrite !Z.eqb_neq, !Z.ltb_ge in S1.
      rewrite Z.eqb_neq, Z.ltb_lt in S2.
      pose proof (Z.div_mod value 128). lia. }
    assert (Hf : (0 < fuel)%nat).
    { destruct fuel; [|lia]. change (2 ^ (7 * Z.of_nat 1 - 1)) with 64 in Hrange. lia. }
    assert (Hrange' : - 2 ^ (7 * Z.of_nat fuel - 1) <= value / 128
                      < 2 ^ (7 * Z.of_nat fuel - 1)).
    { replace (7 * Z.of_nat (S fuel) - 1) with (7 + (7 * Z.of_nat fuel - 1)) in Hrange by lia.
      rewrite Z.pow_add_r in Hrange by lia. change (2 ^ 7) with 128 in Hrange.
      pose proof (Z.div_mod value 128). lia. }
    destruct (IH (value / 128) rest Hf Hrange') as (gs & G & Hlen & Hsum & Hr).
    exists (value mod 128 :: gs). cbn [app leb_groups length groups_sum].
    rewrite byte_ext_bit, byte_low_bits, set_top_bit, u8_byte_of_Z, G by lia.
    assert ((value mod 128 + 128 <? 128) = false) as -> by (apply Z.ltb_ge; lia).
    assert (E : forall b, 0 <= b < 128 -> (b + 128) mod 128 = b)
      by (intros; Z.div_mod_to_equations; lia).
    rewrite E by exact Hb.
    split; [reflexivity|]. split; [lia|].
    replace (7 * Z.of_nat (S (length gs))) with (7 + 7 * Z.of_nat (length gs)) by lia.
    split.
    + change (groups_sum (0 + 1) gs) with (groups_sum (1 + 0) gs).
      rewrite (groups_sum_shift gs 1 0), Hsum by lia.
      rewrite Z.pow_add_r by lia.
      change (2 ^ (7 * 0)) with 1. change (2 ^ (7 * 1)) with 128. change (2 ^ 7) with 128.
      rewrite Z.rem_mul_r by (try apply Z.pow_pos_nonneg; lia). lia.
    + replace (7 + 7 * Z.of_nat (length gs) - 1)
        with (7 + (7 * Z.of_nat (length gs) - 1)) by lia.
      rewrite Z.pow_add_r by lia. change (2 ^ 7) with 128.
      pose proof (Z.div_mod value 128). lia.
Qed.

(** ** Sign extension *)

Lemma int64_of_small (v : Z) : - 2 ^ 63 <= v < 2 ^ 63 -> int64_of v = v.
Proof. intros Hv. unfold int64_of. Z.div_mod_to_equations. lia. Qed.

Lemma int64_of_sub (a b : Z) :
  int64_of (int64_of a - int64_of b) = int64_of (a - b).
Proof. unfold int64_of. Z.div_mod_to_equations. lia. Qed.

Lemma int64_of_wrap64 (v : Z) : int64_of (v mod 2 ^ 64) = int64_of v.
Proof. unfold int64_of. Z.div_mod_to_equations. lia. Qed.

Lemma shl64_one (s : Z) : 0 <= s < 64 -> shl64 1 s = 2 ^ s.
Proof.
  intros Hs. unfold shl64, wrap64.
  assert ((s <? 64) = true) as -> by (apply Z.ltb_lt; lia).
  rewrite Z.shiftl_1_l. apply Z.mod_small. split; [apply Z.pow_nonneg; lia|].
  apply Z.pow_lt_mono_r; lia.
Qed.

(** Up to nine groups (at most 63 bits): the test reads the sign bit of the
    last group and the subtraction removes [2 ^ s]. *)
Lemma sign_extend_short (s value : Z) :
  7 <= s <= 63 ->
  - 2 ^ (s - 1) <= value < 2 ^ (s - 1) ->
  let n := (value mod 2 ^ s) mod 2 ^ 64 in
  (if negb (Z.land n (shl64 1 (wrap64 (s - 1))) =? 0)
   then int64_of (int64_of n - int64_of (shl64 1 s))
   else int64_of n) = value.
Proof.
  intros Hs Hv n.
  assert (P : 0 < 2 ^ (s - 1)) by (apply Z.pow_pos_nonneg; lia).
  assert (D : 2 ^ s = 2 * 2 ^ (s - 1)).
  { replace s with (1 + (s - 1)) at 1 by lia. now rewrite Z.pow_add_r by lia. }
  assert (B : 2 ^ s <= 2 ^ 63) by (apply Z.pow_le_mono_r; lia).
  assert (Hm : 0 <= value mod 2 ^ s < 2 ^ s) by (apply Z.mod_pos_bound; lia).
  assert (Hn : n = value mod 2 ^ s) by (apply Z.mod_small; lia).
  assert (W : wrap64 (s - 1) = s - 1) by (apply Z.mod_small; lia).
  rewrite W, !shl64_one, land_pow2_eqb, Hn by (try replace (s - 1 + 1) with s; lia).
  pose proof (Z.div_mod value (2 ^ s)) as Q.
  destruct (Z.ltb_spec (value mod 2 ^ s) (2 ^ (s - 1))) as [Hlo|Hhi]; cbn [negb].
  - assert (value / 2 ^ s = 0) by nia.
    rewrite int64_of_small; nia.
  - assert (value / 2 ^ s = -1) by nia.
    rewrite int64_of_sub, int64_of_small; nia.
Qed.

(** Ten groups (70 bits): the tested bit lies beyond the 64-bit operand, no
    subtraction takes place, and the accumulator already is the
    two's-complement reading. *)
Lemma sign_extend_full (value : Z) :
  - 2 ^ 63 <= value < 2 ^ 63 ->
  let n := (value mod 2 ^ 70) mod 2 ^ 64 in
  (if negb (Z.land n (shl64 1 (wrap64 (70 - 1))) =? 0)
   then int64_of (int64_of n - int64_of (shl64 1 70))
   else int64_of n) = value.
Proof.
  intros Hv n.
  change (shl64 1 (wrap64 (70 - 1))) with 0. rewrite Z.land_0_r. cbn [Z.eqb negb].
  assert (n = value mod 2 ^ 64) as ->
    by (unfold n; Z.div_mod_to_equations; lia).
  rewrite int64_of_wrap64. now apply int64_of_small.
Qed.

(** C5. Decoding the signed base-128 encoding of any 64-bit signed integer
    [value] returns [value] and leaves the reader just behind the encoding;
    this covers negative values, zero and both ends of the range. *)
Theorem parseSignedLEB128_encodeSigned (value : Z) (rest : Reader) :
  - 2 ^ 63 <= value < 2 ^ 63 ->
  parseSignedLEB128 (encodeSigned value ++ rest) = OK (value, rest).
Proof.
  intros Hv. unfold encodeSigned.
  destruct (encodeSigned_groups_spec 10 value rest) as (gs & G & Hlen & Hsum & Hr);
    [lia | change (2 ^ (7 * Z.of_nat 10 - 1)) with (2 ^ 69); lia |].
  unfold parseSignedLEB128.
  pose proof (leb128_loop_groups _ _ _ G 0 0) as L.
  change (0 mod 2 ^ 64) with 0 in L. change (7 * 0) with 0 in L.
  rewrite L by (change (2 ^ 0) with 1; lia). clear L.
  cbn [bind]. rewrite !Z.add_0_l, Hsum.
  destruct (Nat.eq_dec (length gs) 10) as [E|E].
  - rewrite E in *. change (7 * Z.of_nat 10) with 70.
    pose proof (sign_extend_full value Hv) as S. cbv zeta in S.
    destruct (negb _); now rewrite S.
  - assert (Hs : 7 <= 7 * Z.of_nat (length gs) <= 63) by lia.
    pose proof (sign_extend_short _ value Hs Hr) as S. cbv zeta in S.
    destruct (negb _); now rewrite S.
Qed.

(** The ends of the 64-bit range, zero and a negative value, decoded from
    their encodings. *)
Lemma parseSignedLEB128_encodeSigned_witness :
  parseSignedLEB128 (encodeSigned (- 2 ^ 63) ++ []) = OK (- 2 ^ 63, [])
  /\ parseSignedLEB128 (encodeSigned (2 ^ 63 - 1) ++ [x00]) = OK (2 ^ 63 - 1, [x00])
  /\ parseSignedLEB128 (encodeSigned 0 ++ []) = OK (0, [])
  /\ parseSignedLEB128 (encodeSigned (-8) ++ []) = OK (-8, []).
Proof.
  split; [|split; [|split]].
  - apply (parseSignedLEB128_encodeSigned (- 2 ^ 63) []). lia.
  - apply (parseSignedLEB128_encodeSigned (2 ^ 63 - 1) [x00]). lia.
  - apply (parseSignedLEB128_encodeSigned 0 []). lia.
  - apply (parseSignedLEB128_encodeSigned (-8) []). lia.
Defined.

(** C10. Whenever the bytes at the reader hold a terminated unsigned
    encoding with groups [gs], [parseUnsignedLEB128] succeeds (there is no
    overflow error), leaves the reader behind the terminating byte and
    returns the sum of the [g_i * 2^(7*i)] reduced modulo [2^64]; the groups
    from the eleventh on (shift 70 and more) do not take part in it. *)
Theorem parseUnsignedLEB128_terminated (stream : Reader) (gs : list Z) (rest : Reader) :
  leb_groups stream = Some (gs, rest) ->
  7 * Z.of_nat (length gs) < 2 ^ 64 ->
  parseUnsignedLEB128 stream = OK (groups_sum 0 gs mod 2 ^ 64, rest)
  /\ groups_sum 0 gs mod 2 ^ 64 = groups_sum 0 (firstn 10 gs) mod 2 ^ 64.
Proof.
  intros G Hlen. split.
  - unfold parseUnsignedLEB128.
    pose proof (leb128_loop_groups _ _ _ G 0 0) as L.
    change (0 mod 2 ^ 64) with 0 in L. change (7 * 0) with 0 in L.
    rewrite L by (change (2 ^ 0) with 1; lia).
    cbn [bind]. now rewrite Z.add_0_l.
  - rewrite <- (firstn_skipn 10 gs) at 1. rewrite groups_sum_app.
    destruct (Nat.le_gt_cases 10 (length gs)) as [Hge|Hlt].
    + rewrite firstn_length_le by exact Hge. change (0 + Z.of_nat 10) with (10 + 0).
      rewrite groups_sum_shift by lia.
      change (2 ^ (7 * 10)) with (2 ^ 64 * 2 ^ 6).
      rewrite <- Z.mul_assoc, (Z.mul_comm (2 ^ 64)). apply Z.mod_add. lia.
    + rewrite skipn_all2 by lia. cbn [groups_sum]. now rewrite Z.add_0_r.
Qed.

(** An overlong encoding: eleven groups, the last two non-zero beyond bit
    63; the decoder returns 1 without complaint. *)
Lemma parseUnsignedLEB128_terminated_witness :
  parseUnsignedLEB128 [x81; x80; x80; x80; x80; x80; x80; x80; x80; x82; x7f; x05]
  = OK (1, [x05]).
Proof.
  exact (proj1 (parseUnsignedLEB128_terminated
                  [x81; x80; x80; x80; x80; x80; x80; x80; x80; x82; x7f; x05]
                  [1; 0; 0; 0; 0; 0; 0; 0; 0; 2; 127] [x05] eq_refl eq_refl)).
Defined.

(** ** Readers only move forward *)

Lemma leb128_loop_shorter (stream : Reader) :
  forall n shift n' shift' stream',
  leb128_loop stream n shift = OK (n', shift', stream') ->
  (length stream' < length stream)%nat.
Proof.
  induction stream as [|b stream IH]; intros n shift n' shift' stream' H;
    cbn [leb128_loop] in H; [discriminate|].
  destruct (Z.land (u8 b) dw_LEB_EXTENSION =? 0).
  - inv H. cbn [length]. lia.
  - apply IH in H. cbn [length]. lia.
Qed.

Lemma parseSignedLEB128_shorter (stream : Reader) (v : Z) (stream' : Reader) :
  parseSignedLEB128 stream = OK (v, stream') ->
  (length stream' < length stream)%nat.
Proof.
  unfold parseSignedLEB128, bind. intros H.
  destruct (leb128_loop stream 0 0) as [[[n shift] s]|] eqn:L; [|discriminate].
  apply leb128_loop_shorter in L. destruct (negb _); now inv H.
Qed.

Lemma parseUnsignedLEB128_shorter (stream : Reader) (v : Z) (stream' : Reader) :
  parseUnsignedLEB128 stream = OK (v, stream') ->
  (length stream' < length stream)%nat.
Proof.
  unfold parseUnsignedLEB128, bind. intros H.
  destruct (leb128_loop stream 0 0) as [[[n shift] s]|] eqn:L; [|discriminate].
  apply leb128_loop_shorter in L. now inv H.
Qed.

Lemma ReadFull_length (n : nat) (stream : Reader) (bs : list byte) (stream' : Reader) :
  ReadFull n stream = OK (bs, stream') ->
  bs = firstn n stream /\ stream' = skipn n stream /\ (n <= length stream)%nat
  /\ (0 < length stream)%nat.
Proof.
  unfold ReadFull. destruct stream as [|b stream]; [discriminate|].
  destruct (Nat.ltb_spec (length (b :: stream)) n) as [Hlt|Hge]; [discriminate|].
  intros H. inv H. cbn [length] in *. repeat split; lia.
Qed.

Lemma ReadFull_shorter (n : nat) (stream : Reader) (bs : list byte) (stream' : Reader) :
  (0 < n)%nat -> ReadFull n stream = OK (bs, stream') ->
  (length stream' + n = length stream)%nat.
Proof.
  intros Hn H. apply ReadFull_length in H. destruct H as (_ & -> & Hle & _).
  rewrite length_skipn. lia.
Qed.

Lemma binary_Read_uint32_shorter (o : ByteOrder) (stream : Reader) (v : Z)
  (stream' : Reader) :
  binary_Read_uint32 o stream = OK (v, stream') ->
  (length stream' + 4 = length stream)%nat.
Proof.
  unfold binary_Read_uint32, bind. intros H.
  destruct (ReadFull 4 stream) as [[bs s]|] eqn:R; [|discriminate].
  apply ReadFull_shorter in R; [|lia]. now inv H.
Qed.

Lemma binary_Read_uint64_shorter (o : ByteOrder) (stream : Reader) (v : Z)
  (stream' : Reader) :
  binary_Read_uint64 o stream = OK (v, stream') ->
  (length stream' + 8 = length stream)%nat.
Proof.
  unfold binary_Read_uint64, bind. intros H.
  destruct (ReadFull 8 stream) as [[bs s]|] eqn:R; [|discriminate].
  apply ReadFull_shorter in R; [|lia]. now inv H.
Qed.

Lemma binary_Read_int8_shorter (o : ByteOrder) (stream : Reader) (v : Z)
  (stream' : Reader) :
  binary_Read_int8 o stream = OK (v, stream') ->
  (length stream' + 1 = length stream)%nat.
Proof.
  unfold binary_Read_int8, bind. intros H.
  destruct (ReadFull 1 stream) as [[bs s]|] eqn:R; [|discriminate].
  apply ReadFull_shorter in R; [|lia]. now inv H.
Qed.

Lemma binary_Read_int16_shorter (o : ByteOrder) (stream : Reader) (v : Z)
  (stream' : Reader) :
  binary_Read_int16 o stream = OK (v, stream') ->
  (length stream' + 2 = length stream)%nat.
Proof.
  unfold binary_Read_int16, bind. intros H.
  destruct (ReadFull 2 stream) as [[bs s]|] eqn:R; [|discriminate].
  apply ReadFull_shorter in R; [|lia]. now inv H.
Qed.

(** ** The replay of an FDE: fuel *)

Lemma CanonicalFrameAddress_step_shorter (cie : CommonInformationEntry)
  (pc loc offset : Z) (stream : Reader) (loc' offset' : Z) (stream' : Reader) :
  CanonicalFrameAddress_step cie pc loc offset stream = Continue (loc', offset', stream') ->
  (length stream' < length stream)%nat.
Proof.
  unfold CanonicalFrameAddress_step, ReadByte. intros H.
  destruct stream as [|b stream]; [discriminate|]. cbn [length].
  repeat break_match_hyp; try discriminate; inv H.
  - match goal with E : parseSignedLEB128 _ = _ |- _ =>
      apply parseSignedLEB128_shorter in E end. lia.
  - match goal with E : binary_Read_int8 _ _ = _ |- _ =>
      apply binary_Read_int8_shorter in E end. lia.
  - match goal with E : binary_Read_int16 _ _ = _ |- _ =>
      apply binary_Read_int16_shorter in E end. lia.
  - lia.
Qed.

Lemma CanonicalFrameAddress_loop_S (fuel : nat) (cie : CommonInformationEntry)
  (pc loc offset : Z) (stream : Reader) :
  CanonicalFrameAddress_loop (S fuel) cie pc loc offset stream
  = match CanonicalFrameAddress_step cie pc loc offset stream with
    | Continue (loc', offset', stream') =>
        CanonicalFrameAddress_loop fuel cie pc loc' offset' stream'
    | Break => Some (OK offset)
    | Fail e => Some (Err e)
    end.
Proof. reflexivity. Qed.

Lemma CanonicalFrameAddress_loop_fuel (cie : CommonInformationEntry) (pc : Z) :
  forall fuel1 fuel2 loc offset stream,
  (length stream < fuel1)%nat -> (length stream < fuel2)%nat ->
  CanonicalFrameAddress_loop fuel1 cie pc loc offset stream
  = CanonicalFrameAddress_loop fuel2 cie pc loc offset stream.
Proof.
  induction fuel1 as [|fuel1 IH]; intros fuel2 loc offset stream H1 H2; [lia|].
  destruct fuel2 as [|fuel2]; [lia|]. cbn [CanonicalFrameAddress_loop].
  destruct (CanonicalFrameAddress_step cie pc loc offset stream)
    as [[[loc' offset'] stream']| |e] eqn:E; try reflexivity.
  apply CanonicalFrameAddress_step_shorter in E. apply IH; lia.
Qed.

Lemma CanonicalFrameAddress_loop_total (cie : CommonInformationEntry) (pc : Z) :
  forall fuel loc offset stream,
  (length stream < fuel)%nat ->
  CanonicalFrameAddress_loop fuel cie pc loc offset stream <> None.
Proof.
  induction fuel as [|fuel IH]; intros loc offset stream H; [lia|].
  cbn [CanonicalFrameAddress_loop].
  destruct (CanonicalFrameAddress_step cie pc loc offset stream)
    as [[[loc' offset'] stream']| |e] eqn:E; try discriminate.
  apply CanonicalFrameAddress_step_shorter in E. apply IH; lia.
Qed.

(** [CommonInformationEntry.CanonicalFrameAddress] always returns. *)
Lemma CommonInformationEntry_CanonicalFrameAddress_total
  (cie : CommonInformationEntry) (pc sp : Z) :
  CommonInformationEntry_CanonicalFrameAddress cie pc sp <> None.
Proof.
  unfold CommonInformationEntry_CanonicalFrameAddress, bindM.
  pose proof (CanonicalFrameAddress_loop_total cie pc (S (length (Instructions cie)))
                (InitialLocation cie) (StackOffset cie) (Instructions cie)) as T.
  destruct (CanonicalFrameAddress_loop _ _ _ _ _ _) as [[o|e]|];
    [discriminate|discriminate|]. apply T. lia.
Qed.

(** The replay reads the alignment factors and the byte order of the entry
    and nothing else of it. *)
Lemma CanonicalFrameAddress_loop_with_replay_state (cie : CommonInformationEntry)
  (pc l o : Z) (i : list byte) :
  forall fuel loc offset stream,
  CanonicalFrameAddress_loop fuel (with_replay_state cie l o i) pc loc offset stream
  = CanonicalFrameAddress_loop fuel cie pc loc offset stream.
Proof.
  induction fuel as [|fuel IH]; intros loc offset stream; [reflexivity|].
  cbn [CanonicalFrameAddress_loop].
  change (CanonicalFrameAddress_step (with_replay_state cie l o i) pc loc offset stream)
    with (CanonicalFrameAddress_step cie pc loc offset stream).
  destruct (CanonicalFrameAddress_step cie pc loc offset stream)
    as [[[loc' offset'] stream']| |e]; try reflexivity. apply IH.
Qed.

(** One round of the replay, seen from the entry point: the replay of
    [cie] continues as the replay of the entry that holds the new state. *)
Lemma CanonicalFrameAddress_unfold (cie : CommonInformationEntry) (pc sp : Z)
  (loc' offset' : Z) (stream' : Reader) :
  CanonicalFrameAddress_step cie pc (InitialLocation cie) (StackOffset cie)
    (Instructions cie) = Continue (loc', offset', stream') ->
  CommonInformationEntry_CanonicalFrameAddress cie pc sp
  = CommonInformationEntry_CanonicalFrameAddress
      (with_replay_state cie loc' offset' stream') pc sp.
Proof.
  intros E. unfold CommonInformationEntry_CanonicalFrameAddress.
  change (InitialLocation (with_replay_state cie loc' offset' stream')) with loc'.
  change (StackOffset (with_replay_state cie loc' offset' stream')) with offset'.
  change (Instructions (with_replay_state cie loc' offset' stream')) with stream'.
  rewrite CanonicalFrameAddress_loop_with_replay_state.
  rewrite (CanonicalFrameAddress_loop_S (length (Instructions cie)) cie), E.
  apply CanonicalFrameAddress_step_shorter in E.
  rewrite (CanonicalFrameAddress_loop_fuel cie pc (length (Instructions cie))
             (S (length stream'))) by lia.
  reflexivity.
Qed.

(** ** The replay of an FDE: the instructions *)

Lemma CanonicalFrameAddress_break (cie : CommonInformationEntry) (pc sp : Z) :
  CanonicalFrameAddress_step cie pc (InitialLocation cie) (StackOffset cie)
    (Instructions cie) = Break ->
  CommonInformationEntry_CanonicalFrameAddress cie pc sp
  = replay_result sp (StackOffset cie).
Proof.
  intros E. unfold CommonInformationEntry_CanonicalFrameAddress.
  now rewrite CanonicalFrameAddress_loop_S, E.
Qed.

Lemma CanonicalFrameAddress_fail (cie : CommonInformationEntry) (pc sp : Z) (e : error) :
  CanonicalFrameAddress_step cie pc (InitialLocation cie) (StackOffset cie)
    (Instructions cie) = Fail e ->
  CommonInformationEntry_CanonicalFrameAddress cie pc sp = Some (Err e).
Proof.
  intros E. unfold CommonInformationEntry_CanonicalFrameAddress.
  now rewrite CanonicalFrameAddress_loop_S, E.
Qed.

(** With [loc <= pc], the opcodes 0x40 to 0x80, both ends included, advance
    [loc] by the opcode less 0x40 times the code alignment factor. *)
Lemma CanonicalFrameAddress_step_inline (cie : CommonInformationEntry)
  (pc loc offset : Z) (op : byte) (rest : Reader) :
  loc <= pc -> 0x40 <= u8 op <= 0x80 ->
  CanonicalFrameAddress_step cie pc loc offset (op :: rest)
  = Continue (wrap64 (loc + wrap64 ((u8 op - 0x40) * CodeAlignmentFactor cie)),
              offset, rest).
Proof.
  intros Hloc Hop. unfold CanonicalFrameAddress_step. cbn [ReadByte].
  change dw_CFA_def_cfa_offset_sf with 19. change dw_CFA_advance_loc1 with 2.
  change dw_CFA_advance_loc2 with 3. change dw_CFA_advance_loc with 64.
  destruct (Z.eqb_spec (u8 op) 19); [lia|].
  destruct (Z.gtb_spec loc pc); [lia|].
  destruct (Z.eqb_spec (u8 op) 2); [lia|].
  destruct (Z.eqb_spec (u8 op) 3); [lia|].
  destruct (Z.leb_spec 64 (u8 op)); [|lia].
  destruct (Z.leb_spec (u8 op) 128); [|lia]. cbn [andb].
  unfold wrap8. rewrite (Z.mod_small (u8 op - 64)) by (change (2 ^ 8) with 256; lia).
  reflexivity.
Qed.

(** With [loc <= pc], every opcode other than 0x13, 0x02, 0x03 and 0x40 to
    0x80 is refused. *)
Lemma CanonicalFrameAddress_step_unknown (cie : CommonInformationEntry)
  (pc loc offset : Z) (op : byte) (rest : Reader) :
  loc <= pc -> u8 op <> 0x13 -> u8 op <> 0x02 -> u8 op <> 0x03 ->
  ~ (0x40 <= u8 op <= 0x80) ->
  CanonicalFrameAddress_step cie pc loc offset (op :: rest)
  = Fail (ErrUnknownOpcode (u8 op)).
Proof.
  intros Hloc H19 H2 H3 Hop. unfold CanonicalFrameAddress_step. cbn [ReadByte].
  change dw_CFA_def_cfa_offset_sf with 19. change dw_CFA_advance_loc1 with 2.
  change dw_CFA_advance_loc2 with 3. change dw_CFA_advance_loc with 64.
  destruct (Z.eqb_spec (u8 op) 19); [lia|].
  destruct (Z.gtb_spec loc pc); [lia|].
  destruct (Z.eqb_spec (u8 op) 2); [lia|].
  destruct (Z.eqb_spec (u8 op) 3); [lia|].
  destruct (Z.leb_spec 64 (u8 op)); destruct (Z.leb_spec (u8 op) 128);
    cbn [andb]; try reflexivity; lia.
Qed.

(** C2. In the replay of [CommonInformationEntry.CanonicalFrameAddress],
    opcode 0x13 (def_cfa_offset_sf) sets the offset to the operand times the
    data alignment factor, keeps [loc], and does so whatever [loc] and [pc]
    are; any other opcode met with [loc > pc] ends the replay with the
    offset in effect; the end of the instructions ends it too; and the
    result is [uintptr(int64(sp) + offset)].  Met with [loc <= pc], also
    with [loc = pc], any other opcode is processed as a change of location:
    an inline advance, advance_loc1 and advance_loc2 move [loc], keep the
    offset and let the replay go on, and every remaining opcode is the
    unknown-op-code error. *)
Theorem replay_offset_rule_and_stop (cie : CommonInformationEntry) (pc sp : Z) :
  (forall rest delta rest',
     Instructions cie = x13 :: rest ->
     parseSignedLEB128 rest = OK (delta, rest') ->
     CommonInformationEntry_CanonicalFrameAddress cie pc sp
     = CommonInformationEntry_CanonicalFrameAddress
         (with_replay_state cie (InitialLocation cie)
            (int64_of (delta * DataAlignmentFactor cie)) rest') pc sp)
  /\ (forall op rest,
        Instructions cie = op :: rest ->
        u8 op <> dw_CFA_def_cfa_offset_sf ->
        InitialLocation cie > pc ->
        CommonInformationEntry_CanonicalFrameAddress cie pc sp
        = Some (OK (wrap64 (int64_of (int64_of sp + StackOffset cie)))))
  /\ (Instructions cie = [] ->
      CommonInformationEntry_CanonicalFrameAddress cie pc sp
      = Some (OK (wrap64 (int64_of (int64_of sp + StackOffset cie)))))
  /\ (forall op rest,
        Instructions cie = op :: rest ->
        InitialLocation cie <= pc ->
        0x40 <= u8 op <= 0x80 ->
        CommonInformationEntry_CanonicalFrameAddress cie pc sp
        = CommonInformationEntry_CanonicalFrameAddress
            (with_replay_state cie
               (wrap64 (InitialLocation cie
                        + wrap64 ((u8 op - 0x40) * CodeAlignmentFactor cie)))
               (StackOffset cie) rest) pc sp)
  /\ (forall b rest,
        Instructions cie = x02 :: b :: rest ->
        InitialLocation cie <= pc ->
        CommonInformationEntry_CanonicalFrameAddress cie pc sp
        = CommonInformationEntry_CanonicalFrameAddress
            (with_replay_state cie
               (wrap64 (InitialLocation cie
                        + wrap64 (wrap64 (int8_of (u8 b)) * CodeAlignmentFactor cie)))
               (StackOffset cie) rest) pc sp)
  /\ (forall b1 b2 rest,
        Instructions cie = x03 :: b1 :: b2 :: rest ->
        InitialLocation cie <= pc ->
        CommonInformationEntry_CanonicalFrameAddress cie pc sp
        = CommonInformationEntry_CanonicalFrameAddress
            (with_replay_state cie
               (wrap64 (InitialLocation cie
                        + wrap64 (wrap64 (int16_of (order_uint (cie_order cie) [b1; b2]))
                                  * CodeAlignmentFactor cie)))
               (StackOffset cie) rest) pc sp)
  /\ (forall op rest,
        Instructions cie = op :: rest ->
        InitialLocation cie <= pc ->
        u8 op <> dw_CFA_def_cfa_offset_sf ->
        u8 op <> dw_CFA_advance_loc1 -> u8 op <> dw_CFA_advance_loc2 ->
        ~ (0x40 <= u8 op <= 0x80) ->
        CommonInformationEntry_CanonicalFrameAddress cie pc sp
        = Some (Err (ErrUnknownOpcode (u8 op)))).
Proof.
  split; [|split; [|split; [|split; [|split; [|split]]]]].
  - intros rest delta rest' Hi Hd. apply CanonicalFrameAddress_unfold.
    rewrite Hi. unfold CanonicalFrameAddress_step. cbn [ReadByte].
    change (u8 x13 =? dw_CFA_def_cfa_offset_sf) with true. cbv iota.
    now rewrite Hd.
  - intros op rest Hi Hop Hloc. apply CanonicalFrameAddress_break.
    rewrite Hi. unfold CanonicalFrameAddress_step. cbn [ReadByte].
    destruct (Z.eqb_spec (u8 op) dw_CFA_def_cfa_offset_sf); [contradiction|].
    destruct (Z.gtb_spec (InitialLocation cie) pc); [reflexivity|lia].
  - intros Hi. apply CanonicalFrameAddress_break. now rewrite Hi.
  - intros op rest Hi Hloc Hop. apply CanonicalFrameAddress_unfold.
    rewrite Hi. now apply CanonicalFrameAddress_step_inline.
  - intros b rest Hi Hloc. apply CanonicalFrameAddress_unfold. rewrite Hi.
    unfold CanonicalFrameAddress_step. cbn [ReadByte].
    change (u8 x02 =? dw_CFA_def_cfa_offset_sf) with false.
    change (u8 x02 =? dw_CFA_advance_loc1) with true. cbv iota.
    destruct (Z.gtb_spec (InitialLocation cie) pc); [lia|].
    assert (R : binary_Read_int8 (cie_order cie) (b :: rest)
                = OK (int8_of (u8 b), rest)).
    { unfold binary_Read_int8, ReadFull. cbn [length Nat.ltb Nat.leb firstn skipn bind].
      do 3 f_equal. destruct (cie_order cie); cbn [order_uint rev app le_uint]; lia. }
    now rewrite R.
  - intros b1 b2 rest Hi Hloc. apply CanonicalFrameAddress_unfold. rewrite Hi.
    unfold CanonicalFrameAddress_step. cbn [ReadByte].
    change (u8 x03 =? dw_CFA_def_cfa_offset_sf) with false.
    change (u8 x03 =? dw_CFA_advance_loc1) with false.
    change (u8 x03 =? dw_CFA_advance_loc2) with true. cbv iota.
    destruct (Z.gtb_spec (InitialLocation cie) pc); [lia|]. reflexivity.
  - intros op rest Hi Hloc H19 H2 H3 Hop. apply CanonicalFrameAddress_fail.
    rewrite Hi. now apply CanonicalFrameAddress_step_unknown.
Qed.

(** The first three parts at an entry whose [loc] is already beyond [pc]:
    the offset rule is still applied, an advance is not.  The others at
    [loc = pc]: the replay does not stop, an inline advance and
    advance_loc1 move [loc] (the latter backwards for operand 0xf0), and
    opcode 0x0e is refused. *)
Lemma replay_offset_rule_and_stop_witness :
  CommonInformationEntry_CanonicalFrameAddress
    (working_entry 0x2023 8 [x13; x02]) 0x2000 0x10000
  = CommonInformationEntry_CanonicalFrameAddress
      (with_replay_state (working_entry 0x2023 8 [x13; x02]) 0x2023 (-16) [])
      0x2000 0x10000
  /\ CommonInformationEntry_CanonicalFrameAddress
       (working_entry 0x2023 8 [x41; x13; x02]) 0x2000 0x10000
     = Some (OK 0x10008)
  /\ CommonInformationEntry_CanonicalFrameAddress
       (working_entry 0x2023 (-16) []) 0x2000 0x10000
     = Some (OK 0xfff0)
  /\ CommonInformationEntry_CanonicalFrameAddress
       (working_entry 0x2000 8 [x41; x13; x02]) 0x2000 0x10000
     = CommonInformationEntry_CanonicalFrameAddress
         (with_replay_state (working_entry 0x2000 8 [x41; x13; x02]) 0x2001 8 [x13; x02])
         0x2000 0x10000
  /\ CommonInformationEntry_CanonicalFrameAddress
       (working_entry 0x2000 8 [x02; xf0; x0e]) 0x2000 0x10000
     = CommonInformationEntry_CanonicalFrameAddress
         (with_replay_state (working_entry 0x2000 8 [x02; xf0; x0e]) 0x1ff0 8 [x0e])
         0x2000 0x10000
  /\ CommonInformationEntry_CanonicalFrameAddress
       (working_entry 0x2000 8 [x03; x00; x01; x0e]) 0x2000 0x10000
     = CommonInformationEntry_CanonicalFrameAddress
         (with_replay_state (working_entry 0x2000 8 [x03; x00; x01; x0e]) 0x2100 8 [x0e])
         0x2000 0x10000
  /\ CommonInformationEntry_CanonicalFrameAddress
       (working_entry 0x2000 8 [x0e; x10]) 0x2000 0x10000
     = Some (Err (ErrUnknownOpcode 0x0e)).
Proof.
  split; [|split; [|split; [|split; [|split; [|split]]]]].
  - exact (proj1 (replay_offset_rule_and_stop
                    (working_entry 0x2023 8 [x13; x02]) 0x2000 0x10000)
             [x02] 2 [] eq_refl eq_refl).
  - apply (proj1 (proj2 (replay_offset_rule_and_stop
                           (working_entry 0x2023 8 [x41; x13; x02]) 0x2000 0x10000))
             x41 [x13; x02] eq_refl).
    + discriminate.
    + reflexivity.
  - exact (proj1 (proj2 (proj2 (replay_offset_rule_and_stop
                           (working_entry 0x2023 (-16) []) 0x2000 0x10000)))
             eq_refl).
  - apply (proj1 (proj2 (proj2 (proj2 (replay_offset_rule_and_stop
                           (working_entry 0x2000 8 [x41; x13; x02]) 0x2000 0x10000))))
             x41 [x13; x02] eq_refl).
    + discriminate.
    + split; discriminate.
  - apply (proj1 (proj2 (proj2 (proj2 (proj2 (replay_offset_rule_and_stop
                           (working_entry 0x2000 8 [x02; xf0; x0e]) 0x2000 0x10000)))))
             xf0 [x0e] eq_refl).
    discriminate.
  - apply (proj1 (proj2 (proj2 (proj2 (proj2 (proj2 (replay_offset_rule_and_stop
                           (working_entry 0x2000 8 [x03; x00; x01; x0e]) 0x2000 0x10000))))))
             x00 x01 [x0e] eq_refl).
    discriminate.
  - apply (proj2 (proj2 (proj2 (proj2 (proj2 (proj2 (replay_offset_rule_and_stop
                           (working_entry 0x2000 8 [x0e; x10]) 0x2000 0x10000))))))
             x0e [x10] eq_refl).
    + discriminate.
    + discriminate.
    + discriminate.
    + discriminate.
    + intros [H _]. now apply H.
Defined.

(** C3. Opcode 0x80 met with [loc <= pc] is not refused: the replay takes
    it for an inline advance of 0x40 units and goes on, here to the end of
    the instructions and a successful result. *)
Theorem replay_accepts_opcode_0x80 :
  CanonicalFrameAddress_step (working_entry 0x2000 8 [x80]) 0x2000 0x2000 8 [x80]
  = Continue (0x2040, 8, [])
  /\ CommonInformationEntry_CanonicalFrameAddress
       (working_entry 0x2000 8 [x80]) 0x2000 0x10000
     = Some (OK 0x10008)
  /\ CommonInformationEntry_CanonicalFrameAddress
       (working_entry 0x2000 8 [x80]) 0x2000 0x10000
     <> Some (Err (ErrUnknownOpcode 0x80)).
Proof.
  split; [reflexivity|]. split; [reflexivity|discriminate].
Qed.

(** ** The expression evaluator: fuel and prefixes *)

Lemma parseLocList_step_shorter (info : locInfo) (stack : list Z) (stream : Reader)
  (stack' : list Z) (stream' : Reader) :
  parseLocList_step info stack stream = Continue (stack', stream') ->
  (length stream' < length stream)%nat.
Proof.
  unfold parseLocList_step, ReadByte. intros H.
  destruct stream as [|b stream]; [discriminate|]. cbn [length].
  repeat break_match_hyp; try discriminate; inv H; try lia.
  match goal with E : parseSignedLEB128 _ = _ |- _ =>
    apply parseSignedLEB128_shorter in E end. lia.
Qed.

Lemma parseLocList_loop_S (fuel : nat) (info : locInfo) (stack : list Z)
  (stream : Reader) :
  parseLocList_loop (S fuel) info stack stream
  = match parseLocList_step info stack stream with
    | Continue (stack', stream') => parseLocList_loop fuel info stack' stream'
    | Break => Some (OK stack)
    | Fail e => Some (Err e)
    end.
Proof. reflexivity. Qed.

Lemma parseLocList_loop_fuel (info : locInfo) :
  forall fuel1 fuel2 stack stream,
  (length stream < fuel1)%nat -> (length stream < fuel2)%nat ->
  parseLocList_loop fuel1 info stack stream = parseLocList_loop fuel2 info stack stream.
Proof.
  induction fuel1 as [|fuel1 IH]; intros fuel2 stack stream H1 H2; [lia|].
  destruct fuel2 as [|fuel2]; [lia|]. rewrite !parseLocList_loop_S.
  destruct (parseLocList_step info stack stream) as [[stack' stream']| |e] eqn:E;
    try reflexivity.
  apply parseLocList_step_shorter in E. apply IH; lia.
Qed.

Lemma parseLocList_loop_total (info : locInfo) :
  forall fuel stack stream,
  (length stream < fuel)%nat -> parseLocList_loop fuel info stack stream <> None.
Proof.
  induction fuel as [|fuel IH]; intros stack stream H; [lia|].
  rewrite parseLocList_loop_S.
  destruct (parseLocList_step info stack stream) as [[stack' stream']| |e] eqn:E;
    try discriminate.
  apply parseLocList_step_shorter in E. apply IH; lia.
Qed.

(** [parseLocList] always returns. *)
Lemma parseLocList_total (locList : list byte) (info : locInfo) :
  parseLocList locList info <> None.
Proof.
  unfold parseLocList, bindM.
  pose proof (parseLocList_loop_total info (S (length locList)) [] locList) as T.
  destruct (parseLocList_loop _ _ _ _) as [[stack|e]|];
    [|discriminate|exfalso; apply T; [lia|reflexivity]].
  destruct (length stack =? 1)%nat; discriminate.
Qed.

Lemma leb128_loop_app (stream rest : Reader) :
  forall n shift n' shift' stream',
  leb128_loop stream n shift = OK (n', shift', stream') ->
  leb128_loop (stream ++ rest) n shift = OK (n', shift', stream' ++ rest).
Proof.
  induction stream as [|b stream IH]; intros n shift n' shift' stream' H;
    cbn [leb128_loop app] in *; [discriminate|].
  destruct (Z.land (u8 b) dw_LEB_EXTENSION =? 0).
  - now inv H.
  - now apply IH.
Qed.

Lemma parseSignedLEB128_app (stream rest : Reader) (v : Z) (stream' : Reader) :
  parseSignedLEB128 stream = OK (v, stream') ->
  parseSignedLEB128 (stream ++ rest) = OK (v, stream' ++ rest).
Proof.
  unfold parseSignedLEB128, bind. intros H.
  destruct (leb128_loop stream 0 0) as [[[n shift] s]|] eqn:L; [|discriminate].
  rewrite (leb128_loop_app _ rest _ _ _ _ _ L).
  destruct (negb _); now inv H.
Qed.

Lemma parseLocList_step_app (info : locInfo) (stack : list Z) (stream rest : Reader)
  (stack' : list Z) (stream' : Reader) :
  parseLocList_step info stack stream = Continue (stack', stream') ->
  parseLocList_step info stack (stream ++ rest) = Continue (stack', stream' ++ rest).
Proof.
  unfold parseLocList_step, ReadByte. intros H.
  destruct stream as [|b stream]; [discriminate|]. cbn [app].
  destruct (u8 b =? dw_OP_consts).
  - destruct (parseSignedLEB128 stream) as [[n s]|] eqn:P; [|discriminate].
    rewrite (parseSignedLEB128_app _ rest _ _ P). now inv H.
  - destruct (u8 b =? dw_OP_plus).
    + destruct (length stack <? 2)%nat; [discriminate|]. now inv H.
    + destruct (u8 b =? dw_OP_call_frame_cfa); [|discriminate]. now inv H.
Qed.

(** Running a prefix that ends at an opcode boundary with [stack] brings
    the evaluator to [stack] in front of what follows the prefix. *)
Lemma parseLocList_loop_prefix (info : locInfo) :
  forall fuel pre stack0 stack,
  parseLocList_loop fuel info stack0 pre = Some (OK stack) ->
  forall rest fuel',
  (length (pre ++ rest) < fuel')%nat ->
  parseLocList_loop fuel' info stack0 (pre ++ rest)
  = parseLocList_loop (S (length rest)) info stack rest.
Proof.
  induction fuel as [|fuel IH]; intros pre stack0 stack H rest fuel' Hf;
    [discriminate|].
  rewrite parseLocList_loop_S in H.
  destruct (parseLocList_step info stack0 pre) as [[stack1 pre1]| |e] eqn:E.
  - destruct fuel' as [|fuel']; [lia|]. rewrite parseLocList_loop_S.
    rewrite (parseLocList_step_app _ _ _ rest _ _ E).
    apply parseLocList_step_shorter in E.
    apply (IH _ _ _ H). rewrite length_app in *. lia.
  - inv H. unfold parseLocList_step, ReadByte in E.
    destruct pre as [|b pre]; [|repeat break_match_hyp; discriminate].
    cbn [app] in *. apply parseLocList_loop_fuel; lia.
  - discriminate.
Qed.

(** C6. Structural violations of an expression are errors: the empty
    expression, and any expression that runs to its end leaving a stack of
    depth other than one, is an invalid location list; so is, on the spot
    and whatever follows, an addition reached with fewer than two entries.
    An expression that ends with exactly one entry returns it, read
    unsigned. *)
Theorem parseLocList_structure (info : locInfo) :
  parseLocList [] info = Some (Err ErrInvalidLocList)
  /\ (forall locList stack,
        parseLocList_loop (S (length locList)) info [] locList = Some (OK stack) ->
        length stack <> 1%nat ->
        parseLocList locList info = Some (Err ErrInvalidLocList))
  /\ (forall pre stack rest,
        parseLocList_loop (S (length pre)) info [] pre = Some (OK stack) ->
        (length stack < 2)%nat ->
        parseLocList (pre ++ x22 :: rest) info = Some (Err ErrInvalidLocList))
  /\ (forall locList stack,
        parseLocList_loop (S (length locList)) info [] locList = Some (OK stack) ->
        length stack = 1%nat ->
        parseLocList locList info = Some (OK (wrap64 (nth 0 stack 0)))).
Proof.
  split; [reflexivity|]. split; [|split].
  - intros locList stack H Hd. unfold parseLocList. rewrite H. cbn [bindM].
    destruct (Nat.eqb_spec (length stack) 1); [contradiction|reflexivity].
  - intros pre stack rest H Hd. unfold parseLocList.
    rewrite (parseLocList_loop_prefix info _ _ _ _ H (x22 :: rest)) by lia.
    rewrite parseLocList_loop_S. unfold parseLocList_step. cbn [ReadByte].
    change (u8 x22 =? dw_OP_consts) with false.
    change (u8 x22 =? dw_OP_plus) with true. cbv iota.
    destruct (Nat.ltb_spec (length stack) 2); [reflexivity|lia].
  - intros locList stack H Hd. unfold parseLocList. rewrite H. cbn [bindM].
    now rewrite Hd.
Qed.

(** Two entries left over; an addition with one entry; one entry left. *)
Lemma parseLocList_structure_witness :
  parseLocList [x11; x05; x11; x03] {| CanonicalFrameAddress := 0x2000 |}
  = Some (Err ErrInvalidLocList)
  /\ parseLocList ([x11; x05] ++ x22 :: [x9c]) {| CanonicalFrameAddress := 0x2000 |}
     = Some (Err ErrInvalidLocList)
  /\ parseLocList [x11; x7b] {| CanonicalFrameAddress := 0x2000 |}
     = Some (OK (wrap64 (-5))).
Proof.
  pose proof (parseLocList_structure {| CanonicalFrameAddress := 0x2000 |})
    as (_ & Hdepth & Hadd & Hone).
  split; [|split].
  - apply (Hdepth [x11; x05; x11; x03] [5; 3] eq_refl). discriminate.
  - apply (Hadd [x11; x05] [5] [x9c] eq_refl). cbn [length]. lia.
  - exact (Hone [x11; x7b] [-5] eq_refl eq_refl).
Defined.

(** C7. The evaluator executes three opcodes: 0x11 pushes the signed
    operand, 0x22 replaces the two top entries by their sum, 0x9c pushes the
    canonical frame address read as a signed value.  [5, 3, +] evaluates to
    8, the frame address 0x2000 alone to 0x2000, and any other opcode, once
    reached, ends the evaluation with the unsupported-operation error
    whatever follows it. *)
Theorem parseLocList_three_opcodes (info : locInfo) :
  parseLocList [x11; x05; x11; x03; x22] info = Some (OK 8)
  /\ parseLocList [x9c] {| CanonicalFrameAddress := 0x2000 |} = Some (OK 0x2000)
  /\ (forall stack stream n stream',
        parseSignedLEB128 stream = OK (n, stream') ->
        parseLocList_step info stack (x11 :: stream) = Continue (stack ++ [n], stream'))
  /\ (forall stack a b stream,
        parseLocList_step info (stack ++ [b; a]) (x22 :: stream)
        = Continue (stack ++ [int64_of (a + b)], stream))
  /\ (forall stack stream,
        parseLocList_step info stack (x9c :: stream)
        = Continue (stack ++ [int64_of (CanonicalFrameAddress info)], stream))
  /\ (forall pre stack op rest,
        parseLocList_loop (S (length pre)) info [] pre = Some (OK stack) ->
        u8 op <> dw_OP_consts -> u8 op <> dw_OP_plus ->
        u8 op <> dw_OP_call_frame_cfa ->
        parseLocList (pre ++ op :: rest) info = Some (Err ErrUnsupportedLocOp)).
Proof.
  split; [reflexivity|]. split; [reflexivity|]. split; [|split; [|split]].
  - intros stack stream n stream' P. unfold parseLocList_step. cbn [ReadByte].
    change (u8 x11 =? dw_OP_consts) with true. cbv iota. now rewrite P.
  - intros stack a b stream. unfold parseLocList_step. cbn [ReadByte].
    change (u8 x22 =? dw_OP_consts) with false.
    change (u8 x22 =? dw_OP_plus) with true. cbv iota.
    rewrite length_app. cbn [length].
    destruct (Nat.ltb_spec (length stack + 2) 2); [lia|].
    replace (length stack + 2 - 1)%nat with (length stack + 1)%nat by lia.
    replace (length stack + 2 - 2)%nat with (length stack + 0)%nat by lia.
    rewrite !app_nth2_plus. cbn [nth].
    rewrite Nat.add_0_r, firstn_app, firstn_all, Nat.sub_diag. cbn [firstn].
    now rewrite app_nil_r.
  - intros stack stream. reflexivity.
  - intros pre stack op rest H H1 H2 H3. unfold parseLocList.
    rewrite (parseLocList_loop_prefix info _ _ _ _ H (op :: rest)) by lia.
    rewrite parseLocList_loop_S. unfold parseLocList_step. cbn [ReadByte].
    destruct (Z.eqb_spec (u8 op) dw_OP_consts); [contradiction|].
    destruct (Z.eqb_spec (u8 op) dw_OP_plus); [contradiction|].
    destruct (Z.eqb_spec (u8 op) dw_OP_call_frame_cfa); [contradiction|].
    reflexivity.
Qed.

(** The opcode 0x03 (dw_OP_addr) after a constant. *)
Lemma parseLocList_three_opcodes_witness :
  parseLocList ([x11; x05] ++ x03 :: [x00; x22]) {| CanonicalFrameAddress := 0x2000 |}
  = Some (Err ErrUnsupportedLocOp)
  /\ parseLocList_step {| CanonicalFrameAddress := 0x2000 |} [7] ([x11] ++ [x7b; x22])
     = Continue ([7] ++ [-5], [x22]).
Proof.
  pose proof (parseLocList_three_opcodes {| CanonicalFrameAddress := 0x2000 |})
    as (_ & _ & Hconst & _ & _ & Hother).
  split.
  - apply (Hother [x11; x05] [5] x03 [x00; x22] eq_refl); discriminate.
  - exact (Hconst [7] [x7b; x22] (-5) [x22] eq_refl).
Defined.

(** ** Loading a CIE *)

Lemma ReadFull_inv (n : nat) (stream : Reader) (bs : list byte) (stream' : Reader) :
  ReadFull n stream = OK (bs, stream') ->
  stream = bs ++ stream' /\ length bs = n.
Proof.
  intros H. apply ReadFull_length in H. destruct H as (-> & -> & Hle & _).
  split; [now rewrite firstn_skipn | now apply firstn_length_le].
Qed.

Lemma ReadFull_app (m t : Reader) :
  (0 < length m)%nat -> ReadFull (length m) (m ++ t) = OK (m, t).
Proof.
  intros Hm. unfold ReadFull.
  destruct (m ++ t) as [|b l] eqn:E.
  - apply (f_equal (@length byte)) in E. rewrite length_app in E. cbn in E. lia.
  - rewrite <- E. rewrite length_app.
    destruct (Nat.ltb_spec (length m + length t) (length m)); [lia|].
    rewrite firstn_app, firstn_all, Nat.sub_diag, skipn_app, skipn_all, Nat.sub_diag.
    cbn [firstn skipn app]. now rewrite app_nil_r.
Qed.

(** The sub-stream [parseCommonInformationEntry] cuts out of the region:
    when the length field covers the mark and [k] more bytes that are
    there, the entry starts with them. *)
Lemma Reader_Read_entry (n : nat) (m front back : Reader) :
  (0 < length m)%nat -> (length m + length front <= n)%nat ->
  exists tail junk,
    Reader_Read n (m ++ front ++ back) = OK (m ++ front ++ tail, junk).
Proof.
  intros Hm Hn. unfold Reader_Read.
  destruct (m ++ front ++ back) as [|b l] eqn:E.
  - apply (f_equal (@length byte)) in E. rewrite length_app in E. cbn in E. lia.
  - rewrite <- E. clear E b l.
    rewrite app_assoc, firstn_app, firstn_all2 by (rewrite length_app; lia).
    rewrite <- app_assoc, <- app_assoc. eexists. eexists. reflexivity.
Qed.

(** C8. A record with a well-formed length and mark whose version byte is
    not 3 is refused with the unsupported-version error that carries the
    byte; one of version 3 whose augmentation byte is not zero is refused
    with the unhandled-augmentation error.  Neither result depends on the
    bytes that follow, and a record with a non-zero augmentation byte never
    yields an entry. *)
Theorem parseCommonInformationEntry_version_augmentation
  (d : Data) (id length : Z) (body : Reader) :
  binary_Read_uint32 (order d) (skipn (Z.to_nat id) (frame d)) = OK (length, body) ->
  (forall version rest,
     binary_Read_uint32 (order d) body = OK (0xFFFFFFFF, version :: rest) ->
     5 <= length -> u8 version <> 3 ->
     Data_parseCommonInformationEntry d id
     = Some (Err (ErrUnsupportedVersion (u8 version))))
  /\ (forall version augmentation rest,
        binary_Read_uint32 (order d) body
        = OK (0xFFFFFFFF, version :: augmentation :: rest) ->
        6 <= length -> u8 version = 3 -> u8 augmentation <> 0 ->
        Data_parseCommonInformationEntry d id = Some (Err ErrUnhandledAugmentation))
  /\ (forall version augmentation rest,
        binary_Read_uint32 (order d) body
        = OK (0xFFFFFFFF, version :: augmentation :: rest) ->
        6 <= length -> u8 augmentation <> 0 ->
        forall cie, Data_parseCommonInformationEntry d id <> Some (OK cie)).
Proof.
  intros Hlen.
  assert (Head : forall front back,
            binary_Read_uint32 (order d) body = OK (0xFFFFFFFF, front ++ back) ->
            4 + Z.of_nat (List.length front) <= length ->
            exists tail,
              Data_parseCommonInformationEntry d id
              = (' (mark, stream) <-- lift (OK (0xFFFFFFFF, front ++ tail)) ;;
                 if (length <? 4) || negb (mark =? 0xFFFFFFFF)
                 then Some (Err (ErrNoCIE id))
                 else
                   ' (version, stream) <-- lift (ReadByte stream) ;;
                   if negb (u8 version =? 3)
                   then Some (Err (ErrUnsupportedVersion (u8 version)))
                   else
                     ' (augmentation, stream) <-- lift (ReadByte stream) ;;
                     if negb (u8 augmentation =? 0)
                     then Some (Err ErrUnhandledAugmentation)
                     else
                       ' (codeAlignment, stream) <-- lift (parseUnsignedLEB128 stream) ;;
                       ' (dataAlignment, stream) <-- lift (parseSignedLEB128 stream) ;;
                       ' (returnColumn, stream) <-- lift (ReadByte stream) ;;
                       let cie := new_CommonInformationEntry codeAlignment
                                    dataAlignment returnColumn in
                       match CommonInformationEntry_Update (S (List.length stream))
                               cie stream with
                       | None => None
                       | Some (cie, EOF) => Some (OK cie)
                       | Some (_, err) => Some (Err err)
                       end)).
  { intros front back Hmark Hfit.
    unfold binary_Read_uint32, bind in Hmark.
    destruct (ReadFull 4 body) as [[m s]|] eqn:R; [|discriminate].
    inv Hmark. apply ReadFull_inv in R. destruct R as [-> Hm].
    destruct (Reader_Read_entry (Z.to_nat length) m front back) as (tail & junk & RR);
      [lia|lia|].
    exists tail. unfold Data_parseCommonInformationEntry.
    rewrite Hlen. cbn [lift bindM]. rewrite RR. cbn [bindM].
    unfold binary_Read_uint32 at 1. rewrite <- Hm at 1.
    rewrite ReadFull_app by lia. cbn [bind lift bindM].
    match goal with H : order_uint _ _ = _ |- _ => rewrite H end.
    reflexivity. }
  split; [|split].
  - intros version rest Hmark H5 Hv.
    destruct (Head [version] rest Hmark) as [tail ->]; [cbn [List.length]; lia|].
    cbn [lift bindM app ReadByte].
    assert ((length <? 4) = false) as -> by (apply Z.ltb_ge; lia).
    cbn [orb negb Z.eqb Pos.eqb].
    destruct (Z.eqb_spec (u8 version) 3); [contradiction|reflexivity].
  - intros version augmentation rest Hmark H6 Hv Ha.
    destruct (Head [version; augmentation] rest Hmark) as [tail ->];
      [cbn [List.length]; lia|].
    cbn [lift bindM app ReadByte].
    assert ((length <? 4) = false) as -> by (apply Z.ltb_ge; lia).
    cbn [orb negb Z.eqb Pos.eqb]. rewrite Hv. cbn [Z.eqb Pos.eqb negb].
    destruct (Z.eqb_spec (u8 augmentation) 0); [contradiction|reflexivity].
  - intros version augmentation rest Hmark H6 Ha cie.
    destruct (Head [version; augmentation] rest Hmark) as [tail ->];
      [cbn [List.length]; lia|].
    cbn [lift bindM app ReadByte].
    assert ((length <? 4) = false) as -> by (apply Z.ltb_ge; lia).
    cbn [orb negb Z.eqb Pos.eqb].
    destruct (u8 version =? 3); cbn [negb]; [|discriminate].
    destruct (Z.eqb_spec (u8 augmentation) 0); [contradiction|discriminate].
Qed.

(** A version-4 record and a record with augmentation "z", both otherwise
    the CIE of the worked example. *)
Lemma parseCommonInformationEntry_version_augmentation_witness :
  Data_parseCommonInformationEntry
    {| frame := [x0c; x00; x00; x00; xff; xff; xff; xff;
                 x04; x00; x01; x78; x10; x0c; x07; x08];
       order := LittleEndian |} 0
  = Some (Err (ErrUnsupportedVersion 4))
  /\ Data_parseCommonInformationEntry
       {| frame := [x0c; x00; x00; x00; xff; xff; xff; xff;
                    x03; x7a; x01; x78; x10; x0c; x07; x08];
          order := LittleEndian |} 0
     = Some (Err ErrUnhandledAugmentation).
Proof.
  split.
  - apply (proj1 (parseCommonInformationEntry_version_augmentation
                    {| frame := [x0c; x00; x00; x00; xff; xff; xff; xff;
                                 x04; x00; x01; x78; x10; x0c; x07; x08];
                       order := LittleEndian |} 0 12
                    [xff; xff; xff; xff; x04; x00; x01; x78; x10; x0c; x07; x08]
                    eq_refl)
             x04 [x00; x01; x78; x10; x0c; x07; x08] eq_refl).
    + lia.
    + intros H. vm_compute in H. discriminate H.
  - apply (proj1 (proj2 (parseCommonInformationEntry_version_augmentation
                    {| frame := [x0c; x00; x00; x00; xff; xff; xff; xff;
                                 x03; x7a; x01; x78; x10; x0c; x07; x08];
                       order := LittleEndian |} 0 12
                    [xff; xff; xff; xff; x03; x7a; x01; x78; x10; x0c; x07; x08]
                    eq_refl))
             x03 x7a [x01; x78; x10; x0c; x07; x08] eq_refl).
    + lia.
    + reflexivity.
    + intros H. vm_compute in H. discriminate H.
Defined.

(** ** The initial instructions of a CIE *)

Lemma Update_step_shorter (cie : CommonInformationEntry) (stream : Reader)
  (cie' : CommonInformationEntry) (stream' : Reader) :
  Update_step cie stream = OK (cie', stream') ->
  (length stream' < length stream)%nat.
Proof.
  unfold Update_step, ReadByte, bind. intros H.
  destruct stream as [|b stream]; [discriminate|]. cbn [length].
  repeat break_match_hyp; try discriminate; inv H;
    repeat match goal with
      | E : parseSignedLEB128 _ = _ |- _ => apply parseSignedLEB128_shorter in E
      | E : parseUnsignedLEB128 _ = _ |- _ => apply parseUnsignedLEB128_shorter in E
      end; lia.
Qed.

Lemma CommonInformationEntry_Update_total :
  forall fuel cie stream,
  (length stream < fuel)%nat -> CommonInformationEntry_Update fuel cie stream <> None.
Proof.
  induction fuel as [|fuel IH]; intros cie stream H; [lia|].
  cbn [CommonInformationEntry_Update].
  destruct (Update_step cie stream) as [[cie' stream']|e] eqn:E; [|discriminate].
  apply Update_step_shorter in E. apply IH. lia.
Qed.

(** [parseCommonInformationEntry] always returns. *)
Lemma Data_parseCommonInformationEntry_total (d : Data) (id : Z) :
  Data_parseCommonInformationEntry d id <> None.
Proof.
  unfold Data_parseCommonInformationEntry, bindM, lift.
  repeat match goal with
    | |- context [match ?x with _ => _ end] =>
        lazymatch x with
        | CommonInformationEntry_Update _ _ _ => fail
        | _ => destruct x eqn:?
        end
    end; try discriminate.
  all: match goal with
       | |- context [CommonInformationEntry_Update ?f ?c ?s] =>
           pose proof (CommonInformationEntry_Update_total f c s) as T;
           destruct (CommonInformationEntry_Update f c s) as [[c' e']|];
           [destruct e'; discriminate | exfalso; apply T; [lia|reflexivity]]
       end.
Qed.

(** The switch of [Update]: an opcode that is none of def_cfa, nop and
    offset + return column is refused, and [Update] returns at once. *)
Lemma CommonInformationEntry_Update_unsupported (fuel : nat)
  (cie : CommonInformationEntry) (op : byte) (rest : Reader) :
  u8 op <> dw_CFA_def_cfa -> u8 op <> dw_CFA_nop ->
  u8 op <> wrap8 (dw_CFA_offset + u8 (ReturnColumn cie)) ->
  CommonInformationEntry_Update (S fuel) cie (op :: rest)
  = Some (cie, ErrUnsupportedCFAOp (u8 op)).
Proof.
  intros H1 H2 H3. cbn [CommonInformationEntry_Update].
  unfold Update_step. cbn [ReadByte bind].
  destruct (Z.eqb_spec (u8 op) dw_CFA_def_cfa); [contradiction|].
  destruct (Z.eqb_spec (u8 op) dw_CFA_nop); [contradiction|].
  destruct (Z.eqb_spec (u8 op) (wrap8 (dw_CFA_offset + u8 (ReturnColumn cie))));
    [contradiction|reflexivity].
Qed.

(** C9. [parseCommonInformationEntry] returns an entry for a CIE whose
    initial instructions end inside def_cfa (opcode and register operand
    present, offset operand missing): [Update] reports the end of the
    sub-stream from the operand decoder, the caller takes it for the regular
    end of the instructions, and the entry comes back with the baseline rule
    of a fresh entry (register 0, offset 0), where the complete CIE sets
    register 7, offset 8. *)
Theorem parseCommonInformationEntry_truncated_def_cfa :
  CommonInformationEntry_Update 3 (new_CommonInformationEntry 1 (-8) x10) [x0c; x07]
  = Some (new_CommonInformationEntry 1 (-8) x10, EOF)
  /\ Data_parseCommonInformationEntry
       {| frame := truncated_cie; order := LittleEndian |} 0
     = Some (OK (new_CommonInformationEntry 1 (-8) x10))
  /\ Data_parseCommonInformationEntry
       {| frame := example_cie; order := LittleEndian |} 0
     = Some (OK (set_def_cfa (new_CommonInformationEntry 1 (-8) x10) 7 8)).
Proof.
  repeat split.
Qed.

(** ** The scan of the region *)

Lemma Data_CanonicalFrameAddress_loop_S (fuel : nat) (d : Data) (pc sp : Z)
  (stream : Reader) :
  Data_CanonicalFrameAddress_loop (S fuel) d pc sp stream
  = (' (length, stream) <-- lift (binary_Read_uint32 (order d) stream) ;;
     if length <? 4 then Some (Err ErrEntryTooShort)
     else
       ' (id, stream) <-- lift (binary_Read_uint32 (order d) stream) ;;
       if id =? 0xFFFFFFFF then
         Data_CanonicalFrameAddress_loop fuel d pc sp (Seek_cur (length - 4) stream)
       else if length <? 20 then Some (Err ErrFDETooShort)
       else
         ' (pcstart, stream) <-- lift (binary_Read_uint64 (order d) stream) ;;
         ' (pccount, stream) <-- lift (binary_Read_uint64 (order d) stream) ;;
         if (pcstart <=? pc) && (pc <? wrap64 (pcstart + pccount)) then
           ' cie <-- Data_parseCommonInformationEntry d id ;;
           ' (instructions, _) <-- lift (Reader_Read (Z.to_nat (length - 20)) stream) ;;
           CommonInformationEntry_CanonicalFrameAddress
             (bind_fde cie pcstart pccount instructions (order d)) pc sp
         else
           Data_CanonicalFrameAddress_loop fuel d pc sp (Seek_cur (length - 20) stream)).
Proof. reflexivity. Qed.

Lemma Seek_cur_length (off : Z) (stream : Reader) :
  (length (Seek_cur off stream) <= length stream)%nat.
Proof. unfold Seek_cur. rewrite length_skipn. lia. Qed.

Lemma Data_CanonicalFrameAddress_loop_total (d : Data) (pc sp : Z) :
  forall fuel stream,
  (length stream < fuel)%nat ->
  Data_CanonicalFrameAddress_loop fuel d pc sp stream <> None.
Proof.
  induction fuel as [|fuel IH]; intros stream Hf; [lia|].
  rewrite Data_CanonicalFrameAddress_loop_S. unfold bindM, lift.
  destruct (binary_Read_uint32 (order d) stream) as [[len s1]|] eqn:R1; [|discriminate].
  apply binary_Read_uint32_shorter in R1.
  destruct (len <? 4); [discriminate|].
  destruct (binary_Read_uint32 (order d) s1) as [[id s2]|] eqn:R2; [|discriminate].
  apply binary_Read_uint32_shorter in R2.
  destruct (id =? 0xFFFFFFFF).
  { apply IH. pose proof (Seek_cur_length (len - 4) s2). lia. }
  destruct (len <? 20); [discriminate|].
  destruct (binary_Read_uint64 (order d) s2) as [[pcstart s3]|] eqn:R3; [|discriminate].
  apply binary_Read_uint64_shorter in R3.
  destruct (binary_Read_uint64 (order d) s3) as [[pccount s4]|] eqn:R4; [|discriminate].
  apply binary_Read_uint64_shorter in R4.
  destruct ((pcstart <=? pc) && (pc <? wrap64 (pcstart + pccount))).
  - pose proof (Data_parseCommonInformationEntry_total d id) as T.
    destruct (Data_parseCommonInformationEntry d id) as [[cie|e]|];
      [|discriminate|contradiction].
    destruct (Reader_Read (Z.to_nat (len - 20)) s4) as [[instructions s5]|];
      [|discriminate].
    apply CommonInformationEntry_CanonicalFrameAddress_total.
  - apply IH. pose proof (Seek_cur_length (len - 20) s4). lia.
Qed.

(** [Data.CanonicalFrameAddress] always returns. *)
Lemma Data_CanonicalFrameAddress_total (d : Data) (pc sp : Z) :
  Data_CanonicalFrameAddress d pc sp <> None.
Proof.
  apply Data_CanonicalFrameAddress_loop_total. lia.
Qed.

Lemma le_uint_nonneg (bs : list byte) : 0 <= le_uint bs.
Proof.
  induction bs as [|b bs IH]; cbn [le_uint]; [lia|].
  pose proof (u8_range b). lia.
Qed.

Lemma order_uint_nonneg (o : ByteOrder) (bs : list byte) : 0 <= order_uint o bs.
Proof. destruct o; apply le_uint_nonneg. Qed.

Lemma binary_Read_uint32_error (o : ByteOrder) (stream : Reader) (e : error) :
  binary_Read_uint32 o stream = Err e -> e = EOF \/ e = ErrUnexpectedEOF.
Proof.
  unfold binary_Read_uint32, ReadFull, bind.
  destruct stream as [|b stream]; [intros H; inv H; now left|].
  destruct (length (b :: stream) <? 4)%nat; intros H; inv H. now right.
Qed.

Lemma binary_Read_uint64_result (o : ByteOrder) (stream : Reader) :
  match binary_Read_uint64 o stream with
  | OK (v, _) => 0 <= v
  | Err e => e = EOF \/ e = ErrUnexpectedEOF
  end.
Proof.
  unfold binary_Read_uint64, ReadFull, bind.
  destruct stream as [|b stream]; [now left|].
  destruct (length (b :: stream) <? 8)%nat; [now right|].
  apply order_uint_nonneg.
Qed.

(** When [pc] lies in the range of none of the frame descriptions of the
    region, the scan ends in an error of the reader or of the record
    layout, never in an address. *)
Lemma Data_CanonicalFrameAddress_loop_uncovered (d : Data) (pc sp : Z) :
  forall fuel stream,
  (length stream < fuel)%nat ->
  (forall pcstart pccount,
     In (pcstart, pccount) (frame_descriptions fuel (order d) stream) ->
     ~ (pcstart <= pc < pcstart + pccount)) ->
  exists e, Data_CanonicalFrameAddress_loop fuel d pc sp stream = Some (Err e)
            /\ scan_error e.
Proof.
  unfold scan_error.
  induction fuel as [|fuel IH]; intros stream Hf Hout; [lia|].
  rewrite Data_CanonicalFrameAddress_loop_S. unfold bindM, lift.
  cbn [frame_descriptions] in Hout.
  destruct (binary_Read_uint32 (order d) stream) as [[len s1]|e1] eqn:R1.
  2:{ apply binary_Read_uint32_error in R1. exists e1. tauto. }
  apply binary_Read_uint32_shorter in R1.
  destruct (len <? 4); [exists ErrEntryTooShort; tauto|].
  destruct (binary_Read_uint32 (order d) s1) as [[id s2]|e2] eqn:R2.
  2:{ apply binary_Read_uint32_error in R2. exists e2. tauto. }
  apply binary_Read_uint32_shorter in R2.
  destruct (id =? 0xFFFFFFFF).
  { apply IH; [|exact Hout]. pose proof (Seek_cur_length (len - 4) s2). lia. }
  destruct (len <? 20); [exists ErrFDETooShort; tauto|].
  pose proof (binary_Read_uint64_result (order d) s2) as P3.
  destruct (binary_Read_uint64 (order d) s2) as [[pcstart s3]|e3] eqn:R3.
  2:{ exists e3. tauto. }
  apply binary_Read_uint64_shorter in R3.
  pose proof (binary_Read_uint64_result (order d) s3) as P4.
  destruct (binary_Read_uint64 (order d) s3) as [[pccount s4]|e4] eqn:R4.
  2:{ exists e4. tauto. }
  apply binary_Read_uint64_shorter in R4.
  destruct ((pcstart <=? pc) && (pc <? wrap64 (pcstart + pccount))) eqn:C.
  - exfalso. apply (Hout pcstart pccount); [now left|].
    apply andb_true_iff in C. destruct C as [C1 C2].
    apply Z.leb_le in C1. apply Z.ltb_lt in C2. unfold wrap64 in C2.
    pose proof (Z.mod_le (pcstart + pccount) (2 ^ 64)). lia.
  - apply IH.
    + pose proof (Seek_cur_length (len - 20) s4). lia.
    + intros s c Hin. apply Hout. now right.
Qed.

Lemma Data_CanonicalFrameAddress_uncovered (d : Data) (pc sp : Z) :
  (forall pcstart pccount,
     In (pcstart, pccount)
        (frame_descriptions (S (length (frame d))) (order d) (frame d)) ->
     ~ (pcstart <= pc < pcstart + pccount)) ->
  exists e, Data_CanonicalFrameAddress d pc sp = Some (Err e) /\ scan_error e.
Proof.
  intros H. apply Data_CanonicalFrameAddress_loop_uncovered; [lia|exact H].
Qed.

(** C4. A region without any frame description, and the region of the
    worked example asked for a [pc] beyond its only frame description: the
    scan reads past the last record, the read of the next length field
    reports the end of the input, and that error is returned as it is.  The
    frame-data-didn't-include-pc error, which the source places after the
    loop, is not what the caller gets. *)
Theorem Data_CanonicalFrameAddress_not_found_is_EOF :
  Data_CanonicalFrameAddress {| frame := []; order := LittleEndian |} 0x2000 0x10000
  = Some (Err EOF)
  /\ Data_CanonicalFrameAddress
       {| frame := example_cie; order := LittleEndian |} 0x2000 0x10000
     = Some (Err EOF)
  /\ Data_CanonicalFrameAddress example_data 0x2100 0x10000 = Some (Err EOF)
  /\ Data_CanonicalFrameAddress example_data 0x1fff 0x10000 = Some (Err EOF)
  /\ Some (Err EOF) <> Some (@Err Z ErrFrameDataNoPc).
Proof.
  repeat split. discriminate.
Qed.

(** ** The worked example *)

(** The scan skips the CIE, finds the FDE and hands the bound entry to the
    replay. *)
Lemma example_scan (pc sp : Z) :
  0x2000 <= pc < 0x2100 ->
  Data_CanonicalFrameAddress example_data pc sp
  = CommonInformationEntry_CanonicalFrameAddress
      (working_entry 0x2000 8 [x63; x13; x02]) pc sp.
Proof.
  intros Hpc. unfold Data_CanonicalFrameAddress.
  change (length (frame example_data)) with 43%nat.
  rewrite Data_CanonicalFrameAddress_loop_S.
  eval_lift. eval_if. eval_lift. eval_if. eval_seek.
  rewrite Data_CanonicalFrameAddress_loop_S.
  eval_lift. eval_if. eval_lift. eval_if. eval_if. eval_lift. eval_lift.
  change (wrap64 (8192 + 256)) with 8448.
  assert ((8192 <=? pc) = true) as -> by (apply Z.leb_le; lia).
  assert ((pc <? 8448) = true) as -> by (apply Z.ltb_lt; lia).
  cbn [andb].
  match goal with
  | |- context [Data_parseCommonInformationEntry ?d ?i] =>
      let v := eval vm_compute in (Data_parseCommonInformationEntry d i) in
      change (Data_parseCommonInformationEntry d i) with v
  end.
  cbn [bindM]. eval_lift. reflexivity.
Qed.

(** For every [pc] of the FDE the replay ends with the offset of
    def_cfa_offset_sf(2), also in front of the advance. *)
Lemma example_replay (pc sp : Z) :
  0x2000 <= pc ->
  CommonInformationEntry_CanonicalFrameAddress
    (working_entry 0x2000 8 [x63; x13; x02]) pc sp
  = replay_result sp (-16).
Proof.
  intros Hpc.
  rewrite (CanonicalFrameAddress_unfold _ pc sp 0x2023 8 [x13; x02]).
  2:{ apply (CanonicalFrameAddress_step_inline
               (working_entry 0x2000 8 [x63; x13; x02]) pc 0x2000 8 x63 [x13; x02]).
      - exact Hpc.
      - vm_compute. split; discriminate. }
  rewrite (CanonicalFrameAddress_unfold _ pc sp 0x2023 (-16) []) by reflexivity.
  now rewrite CanonicalFrameAddress_break.
Qed.

Lemma example_everywhere (pc sp : Z) :
  0x2000 <= pc < 0x2100 -> 0 <= sp < 2 ^ 64 ->
  Data_CanonicalFrameAddress example_data pc sp = Some (OK ((sp - 16) mod 2 ^ 64)).
Proof.
  intros Hpc Hsp. rewrite example_scan, example_replay by lia.
  unfold replay_result, wrap64, int64_of. do 2 f_equal.
  Z.div_mod_to_equations. lia.
Qed.

(** C1. In the region of the worked example, with [sp = 0x10000], the
    queries in front of the advance, [pc = 0x2000] and [pc = 0x2022], return
    [sp - 16] like the queries behind it, and not [sp + 8]: the replay stops
    at the first advance it meets with [loc > pc], and the offset rule that
    follows the advance to 0x2023 has been applied by then. *)
Theorem example_before_advance :
  Data_CanonicalFrameAddress example_data 0x2000 0x10000 = Some (OK (0x10000 - 16))
  /\ Data_CanonicalFrameAddress example_data 0x2022 0x10000 = Some (OK (0x10000 - 16))
  /\ Data_CanonicalFrameAddress example_data 0x2023 0x10000 = Some (OK (0x10000 - 16))
  /\ Data_CanonicalFrameAddress example_data 0x20ff 0x10000 = Some (OK (0x10000 - 16))
  /\ Data_CanonicalFrameAddress example_data 0x2000 0x10000 <> Some (OK (0x10000 + 8)).
Proof.
  repeat split. discriminate.
Qed.

(** On 0x40 to 0x7f the amount of an inline advance is the low six bits of
    the opcode; on 0x80 it is 0x40 where the low six bits are 0. *)
Lemma inline_advance_low_bits (op : byte) :
  0x40 <= u8 op <= 0x7f -> u8 op - 0x40 = Z.land (u8 op) 0x3f.
Proof.
  destruct op; vm_compute; intros [H1 H2]; try reflexivity;
    first [now elim H1 | now elim H2].
Qed.

(** * Further properties *)

(** ** The decoders on arbitrary input *)

Lemma leb128_loop_unterminated (stream : Reader) :
  leb_groups stream = None ->
  forall n shift, leb128_loop stream n shift = Err EOF.
Proof.
  induction stream as [|b stream IH]; intros G n shift; [reflexivity|].
  cbn [leb_groups] in G. cbn [leb128_loop]. change dw_LEB_EXTENSION with 128.
  destruct (Z.land (u8 b) 128 =? 0); [discriminate|].
  destruct (leb_groups stream) as [[gs rest]|]; [discriminate|]. now apply IH.
Qed.

Lemma leb128_loop_error (stream : Reader) :
  forall n shift e,
  leb128_loop stream n shift = Err e -> e = EOF /\ leb_groups stream = None.
Proof.
  induction stream as [|b stream IH]; intros n shift e H.
  - inv H. now split.
  - cbn [leb128_loop] in H. cbn [leb_groups]. change dw_LEB_EXTENSION with 128 in H.
    destruct (Z.land (u8 b) 128 =? 0); [discriminate|].
    apply IH in H. destruct H as [-> ->]. now split.
Qed.

Lemma parseUnsignedLEB128_groups (stream : Reader) (gs : list Z) (rest : Reader) :
  leb_groups stream = Some (gs, rest) ->
  7 * Z.of_nat (length gs) < 2 ^ 64 ->
  parseUnsignedLEB128 stream = OK (groups_sum 0 gs mod 2 ^ 64, rest).
Proof.
  intros G Hlen. unfold parseUnsignedLEB128.
  pose proof (leb128_loop_groups _ _ _ G 0 0) as L.
  change (0 mod 2 ^ 64) with 0 in L. change (7 * 0) with 0 in L.
  rewrite L by (change (2 ^ 0) with 1; lia).
  cbn [bind]. now rewrite Z.add_0_l.
Qed.

Lemma parseSignedLEB128_groups (stream : Reader) (gs : list Z) (rest : Reader) :
  leb_groups stream = Some (gs, rest) ->
  7 * Z.of_nat (length gs) < 2 ^ 64 ->
  parseSignedLEB128 stream
  = let n := groups_sum 0 gs mod 2 ^ 64 in
    let shift := 7 * Z.of_nat (length gs) in
    OK (if negb (Z.land n (shl64 1 (wrap64 (shift - 1))) =? 0)
        then int64_of (int64_of n - int64_of (shl64 1 shift))
        else int64_of n, rest).
Proof.
  intros G Hlen. unfold parseSignedLEB128.
  pose proof (leb128_loop_groups _ _ _ G 0 0) as L.
  change (0 mod 2 ^ 64) with 0 in L. change (7 * 0) with 0 in L.
  rewrite L by (change (2 ^ 0) with 1; lia).
  cbn [bind]. rewrite !Z.add_0_l. cbv zeta. now destruct (negb _).
Qed.

(** Both decoders fail exactly when no byte with a clear top bit is left
    to read, the empty reader included, and [io.EOF] is their only error:
    an operand cut off in its middle is reported like the end of the
    input. *)
Theorem LEB128_truncation (stream : Reader) :
  (leb_groups stream = None ->
   parseUnsignedLEB128 stream = Err EOF /\ parseSignedLEB128 stream = Err EOF)
  /\ (forall e,
        parseUnsignedLEB128 stream = Err e \/ parseSignedLEB128 stream = Err e ->
        e = EOF /\ leb_groups stream = None).
Proof.
  split.
  - intros G. unfold parseUnsignedLEB128, parseSignedLEB128.
    now rewrite (leb128_loop_unterminated _ G).
  - intros e [H|H]; unfold parseUnsignedLEB128, parseSignedLEB128, bind in H;
      destruct (leb128_loop stream 0 0) as [[[n shift] s]|e'] eqn:L.
    + discriminate.
    + inv H. now apply (leb128_loop_error _ _ _ _ L).
    + destruct (negb _); discriminate.
    + inv H. now apply (leb128_loop_error _ _ _ _ L).
Qed.

Lemma LEB128_truncation_witness :
  (parseUnsignedLEB128 [x80; xff] = Err EOF /\ parseSignedLEB128 [x80; xff] = Err EOF)
  /\ (EOF = EOF /\ leb_groups [] = None).
Proof.
  split.
  - exact (proj1 (LEB128_truncation [x80; xff]) eq_refl).
  - exact (proj2 (LEB128_truncation []) EOF (or_intror eq_refl)).
Defined.

(** ** The unsigned round trip *)

Lemma encodeUnsigned_groups_spec (fuel : nat) :
  forall value rest,
  (0 < fuel)%nat -> 0 <= value < 2 ^ (7 * Z.of_nat fuel) ->
  exists gs,
    leb_groups (encodeUnsigned_groups fuel value ++ rest) = Some (gs, rest)
    /\ (0 < length gs <= fuel)%nat
    /\ groups_sum 0 gs = value.
Proof.
  induction fuel as [|fuel IH]; intros value rest Hfuel Hrange; [lia|].
  cbn [encodeUnsigned_groups].
  rewrite low7_land, Z.shiftr_div_pow2 by lia. change (2 ^ 7) with 128.
  assert (Hb : 0 <= value mod 128 < 128) by (apply Z.mod_pos_bound; lia).
  pose proof (Z.div_mod value 128) as Hdm.
  destruct (Z.eqb_spec (value / 128) 0) as [Hz|Hnz].
  - exists [value mod 128]. cbn [app leb_groups length groups_sum].
    rewrite byte_ext_bit, byte_low_bits, u8_byte_of_Z by lia.
    assert ((value mod 128 <? 128) = true) as -> by (apply Z.ltb_lt; lia).
    rewrite (Z.mod_small (value mod 128)) by lia.
    change (2 ^ (7 * 0)) with 1. repeat split; lia.
  - assert (Hf : (0 < fuel)%nat).
    { destruct fuel; [|lia]. change (2 ^ (7 * Z.of_nat 1)) with 128 in Hrange.
      assert (value / 128 = 0) by (apply Z.div_small; lia). lia. }
    assert (Hrange' : 0 <= value / 128 < 2 ^ (7 * Z.of_nat fuel)).
    { replace (7 * Z.of_nat (S fuel)) with (7 + 7 * Z.of_nat fuel) in Hrange by lia.
      rewrite Z.pow_add_r in Hrange by lia. change (2 ^ 7) with 128 in Hrange.
      split; [apply Z.div_pos; lia|]. apply Z.div_lt_upper_bound; lia. }
    destruct (IH (value / 128) rest Hf Hrange') as (gs & G & Hlen & Hsum).
    exists (value mod 128 :: gs). cbn [app leb_groups length groups_sum].
    rewrite byte_ext_bit, byte_low_bits, set_top_bit, u8_byte_of_Z, G by lia.
    assert ((value mod 128 + 128 <? 128) = false) as -> by (apply Z.ltb_ge; lia).
    assert (E : forall b, 0 <= b < 128 -> (b + 128) mod 128 = b)
      by (intros; Z.div_mod_to_equations; lia).
    rewrite E by exact Hb.
    split; [reflexivity|]. split; [lia|].
    change (groups_sum (0 + 1) gs) with (groups_sum (1 + 0) gs).
    rewrite (groups_sum_shift gs 1 0), Hsum by lia.
    change (2 ^ (7 * 0)) with 1. change (2 ^ (7 * 1)) with 128. lia.
Qed.

Lemma decode_encodeUnsigned (value : Z) (rest : Reader) :
  0 <= value < 2 ^ 64 ->
  parseUnsignedLEB128 (encodeUnsigned value ++ rest) = OK (value, rest).
Proof.
  intros Hv. unfold encodeUnsigned.
  destruct (encodeUnsigned_groups_spec 10 value rest) as (gs & G & Hlen & Hsum);
    [lia | change (2 ^ (7 * Z.of_nat 10)) with (2 ^ 70); lia |].
  rewrite (parseUnsignedLEB128_groups _ _ _ G) by lia.
  rewrite Hsum, Z.mod_small by lia. reflexivity.
Qed.

(** Decoding the unsigned base-128 encoding of any 64-bit unsigned integer
    returns it and leaves the reader just behind the encoding. *)
Theorem parseUnsignedLEB128_encodeUnsigned (value : Z) (rest : Reader) :
  0 <= value < 2 ^ 64 ->
  parseUnsignedLEB128 (encodeUnsigned value ++ rest) = OK (value, rest).
Proof. exact (decode_encodeUnsigned value rest). Qed.

Lemma parseUnsignedLEB128_encodeUnsigned_witness :
  parseUnsignedLEB128 (encodeUnsigned (2 ^ 64 - 1) ++ [x07]) = OK (2 ^ 64 - 1, [x07])
  /\ parseUnsignedLEB128 (encodeUnsigned 0 ++ []) = OK (0, []).
Proof.
  split.
  - apply (parseUnsignedLEB128_encodeUnsigned (2 ^ 64 - 1) [x07]). lia.
  - apply (parseUnsignedLEB128_encodeUnsigned 0 []). lia.
Defined.

(** ** Sign extension on arbitrary input *)

Lemma groups_sum_last (gs : list Z) :
  gs <> [] -> Forall (fun g => 0 <= g < 128) gs ->
  let k := Z.of_nat (length gs) in
  groups_sum 0 gs = groups_sum 0 (removelast gs) + last gs 0 * 2 ^ (7 * (k - 1))
  /\ 0 <= groups_sum 0 (removelast gs) < 2 ^ (7 * (k - 1))
  /\ 0 <= last gs 0 < 128.
Proof.
  intros Hne Hr k.
  pose proof (app_removelast_last 0 Hne) as E.
  assert (Hlen : Z.of_nat (length (removelast gs)) = k - 1).
  { unfold k. rewrite E at 2. rewrite length_app. cbn [length]. lia. }
  assert (Hr' : Forall (fun g => 0 <= g < 128) (removelast gs) /\ 0 <= last gs 0 < 128).
  { rewrite E in Hr. apply Forall_app in Hr. destruct Hr as [H1 H2].
    split; [exact H1|]. now inv H2. }
  destruct Hr' as [Hr1 Hr2].
  split; [|split; [|exact Hr2]].
  - rewrite E at 1. rewrite groups_sum_app, Hlen. cbn [groups_sum].
    rewrite Z.add_0_l, Z.add_0_r. reflexivity.
  - pose proof (groups_sum_bound _ Hr1 0) as B. rewrite Hlen in B.
    change (2 ^ (7 * 0)) with 1 in B. rewrite Z.add_0_l in B. lia.
Qed.

(** On an operand of up to nine bytes the signed decoder returns the
    unsigned value of the groups when bit 6 of the last group is clear, and
    that value less [2 ^ (7 * k)] when it is set, for whatever bytes were
    read, canonical encoding or not. *)
Theorem parseSignedLEB128_sign_extension (stream : Reader) (gs : list Z) (rest : Reader) :
  leb_groups stream = Some (gs, rest) ->
  (length gs <= 9)%nat ->
  parseSignedLEB128 stream
  = OK (if last gs 0 <? 64 then groups_sum 0 gs
        else groups_sum 0 gs - 2 ^ (7 * Z.of_nat (length gs)), rest).
Proof.
  intros G Hk.
  pose proof (leb_groups_range _ _ _ G) as Hr.
  pose proof (leb_groups_length _ _ _ G) as [_ Hpos].
  assert (Hne : gs <> []) by (destruct gs; [cbn in Hpos; lia|discriminate]).
  destruct (groups_sum_last gs Hne Hr) as (Hsum & Hlow & Hlast). cbv zeta in *.
  rewrite (parseSignedLEB128_groups _ _ _ G) by lia. cbv zeta.
  set (s := 7 * Z.of_nat (length gs)) in *.
  set (u := groups_sum 0 gs) in *.
  assert (Hs : 7 <= s <= 63) by (unfold s; lia).
  assert (D : 2 ^ s = 128 * 2 ^ (7 * (Z.of_nat (length gs) - 1))).
  { replace s with (7 + 7 * (Z.of_nat (length gs) - 1)) by (unfold s; lia).
    now rewrite Z.pow_add_r by lia. }
  assert (D' : 2 ^ (s - 1) = 64 * 2 ^ (7 * (Z.of_nat (length gs) - 1))).
  { replace (s - 1) with (6 + 7 * (Z.of_nat (length gs) - 1)) by (unfold s; lia).
    now rewrite Z.pow_add_r by lia. }
  set (value := if last gs 0 <? 64 then u else u - 2 ^ s).
  assert (Hv : - 2 ^ (s - 1) <= value < 2 ^ (s - 1)).
  { unfold value. destruct (Z.ltb_spec (last gs 0) 64); nia. }
  assert (Hm : value mod 2 ^ s = u).
  { unfold value. destruct (Z.ltb_spec (last gs 0) 64).
    - apply Z.mod_small. nia.
    - symmetry. apply (Z.mod_unique (u - 2 ^ s) (2 ^ s) (-1) u); nia. }
  pose proof (sign_extend_short s value Hs Hv) as S. cbv zeta in S.
  rewrite Hm in S. f_equal. f_equal. exact S.
Qed.

Lemma parseSignedLEB128_sign_extension_witness :
  parseSignedLEB128 [xfe; xff; x7f; x01] = OK (16382 + 127 * 2 ^ 14 - 2 ^ 21, [x01])
  /\ parseSignedLEB128 [x82; x80; x00] = OK (2, []).
Proof.
  split.
  - apply (parseSignedLEB128_sign_extension [xfe; xff; x7f; x01] [126; 127; 127] [x01]
             eq_refl). cbn [length]. lia.
  - apply (parseSignedLEB128_sign_extension [x82; x80; x00] [2; 0; 0] [] eq_refl).
    cbn [length]. lia.
Defined.

(** From ten bytes on the sign test looks at a bit beyond the 64-bit
    accumulator and never fires: the result is the low 64 bits of the groups
    read as a two's-complement number, whatever the last group is. *)
Theorem parseSignedLEB128_ten_groups (stream : Reader) (gs : list Z) (rest : Reader) :
  leb_groups stream = Some (gs, rest) ->
  (10 <= length gs)%nat ->
  7 * Z.of_nat (length gs) < 2 ^ 64 ->
  parseSignedLEB128 stream = OK (int64_of (groups_sum 0 gs mod 2 ^ 64), rest).
Proof.
  intros G Hk Hlen.
  rewrite (parseSignedLEB128_groups _ _ _ G) by lia. cbv zeta.
  assert (W : wrap64 (7 * Z.of_nat (length gs) - 1) = 7 * Z.of_nat (length gs) - 1)
    by (apply Z.mod_small; lia).
  rewrite W. unfold shl64 at 1.
  assert ((7 * Z.of_nat (length gs) - 1 <? 64) = false) as -> by (apply Z.ltb_ge; lia).
  now rewrite Z.land_0_r.
Qed.

(** Ten bytes whose last group is 0x40: a negative number by its sign bit,
    decoded to 0. *)
Lemma parseSignedLEB128_ten_groups_witness :
  parseSignedLEB128 [x80; x80; x80; x80; x80; x80; x80; x80; x80; x40] = OK (0, []).
Proof.
  apply (parseSignedLEB128_ten_groups
           [x80; x80; x80; x80; x80; x80; x80; x80; x80; x40]
           [0; 0; 0; 0; 0; 0; 0; 0; 0; 64] [] eq_refl).
  - cbn [length]. lia.
  - reflexivity.
Defined.

(** ** The expression evaluator on encoded operations *)

Lemma decode_encodeSigned (value : Z) (rest : Reader) :
  - 2 ^ 63 <= value < 2 ^ 63 ->
  parseSignedLEB128 (encodeSigned value ++ rest) = OK (value, rest).
Proof.
  intros Hv. unfold encodeSigned.
  destruct (encodeSigned_groups_spec 10 value rest) as (gs & G & Hlen & Hsum & Hr);
    [lia | change (2 ^ (7 * Z.of_nat 10 - 1)) with (2 ^ 69); lia |].
  rewrite (parseSignedLEB128_groups _ _ _ G) by lia. cbv zeta. rewrite Hsum.
  f_equal. f_equal.
  destruct (Nat.eq_dec (length gs) 10) as [E|E].
  - rewrite E. change (7 * Z.of_nat 10) with 70. now apply sign_extend_full.
  - apply sign_extend_short; [lia|exact Hr].
Qed.

Lemma parseLocList_step_consts (info : locInfo) (stack : list Z) (stream : Reader)
  (n : Z) (stream' : Reader) :
  parseSignedLEB128 stream = OK (n, stream') ->
  parseLocList_step info stack (x11 :: stream) = Continue (stack ++ [n], stream').
Proof.
  intros P. unfold parseLocList_step. cbn [ReadByte].
  change (u8 x11 =? dw_OP_consts) with true. cbv iota. now rewrite P.
Qed.

Lemma parseLocList_step_plus (info : locInfo) (stack : list Z) (a b : Z)
  (stream : Reader) :
  parseLocList_step info (stack ++ [b; a]) (x22 :: stream)
  = Continue (stack ++ [int64_of (a + b)], stream).
Proof.
  unfold parseLocList_step. cbn [ReadByte].
  change (u8 x22 =? dw_OP_consts) with false.
  change (u8 x22 =? dw_OP_plus) with true. cbv iota.
  rewrite length_app. cbn [length].
  destruct (Nat.ltb_spec (length stack + 2) 2); [lia|].
  replace (length stack + 2 - 1)%nat with (length stack + 1)%nat by lia.
  replace (length stack + 2 - 2)%nat with (length stack + 0)%nat by lia.
  rewrite !app_nth2_plus. cbn [nth].
  rewrite Nat.add_0_r, firstn_app, firstn_all, Nat.sub_diag. cbn [firstn].
  now rewrite app_nil_r.
Qed.

Lemma parseLocList_step_plus_short (info : locInfo) (stack : list Z) (stream : Reader) :
  (length stack < 2)%nat ->
  parseLocList_step info stack (x22 :: stream) = Fail ErrInvalidLocList.
Proof.
  intros H. unfold parseLocList_step. cbn [ReadByte].
  change (u8 x22 =? dw_OP_consts) with false.
  change (u8 x22 =? dw_OP_plus) with true. cbv iota.
  destruct (Nat.ltb_spec (length stack) 2); [reflexivity|lia].
Qed.

Lemma encodeSigned_nonempty (value : Z) : (0 < length (encodeSigned value))%nat.
Proof.
  unfold encodeSigned. cbn [encodeSigned_groups].
  destruct (_ || _); cbn [length]; lia.
Qed.

(** The loop on the encoding of a list of operations, in front of any
    further bytes: it fails where the stack machine does, and otherwise
    arrives at the further bytes with the stack of the machine, bottom
    first. *)
Lemma parseLocList_loop_ops (info : locInfo) :
  forall ops st rest fuel,
  Forall const_in_range ops ->
  (length (encode_ops ops ++ rest) < fuel)%nat ->
  parseLocList_loop fuel info (rev st) (encode_ops ops ++ rest)
  = match exec_ops (CanonicalFrameAddress info) ops st with
    | None => Some (Err ErrInvalidLocList)
    | Some st' => parseLocList_loop (S (length rest)) info (rev st') rest
    end.
Proof.
  induction ops as [|op ops IH]; intros st rest fuel Hr Hf.
  - cbn [encode_ops flat_map app exec_ops] in *. apply parseLocList_loop_fuel; lia.
  - inv Hr. destruct fuel as [|fuel]; [lia|].
    change (encode_ops (op :: ops)) with (encode_op op ++ encode_ops ops) in *.
    rewrite <- app_assoc in *. rewrite length_app in Hf.
    rewrite parseLocList_loop_S. cbn [exec_ops].
    destruct op as [n| |]; cbn [encode_op exec_op app] in *.
    + rewrite (parseLocList_step_consts info _ _ n (encode_ops ops ++ rest))
        by (apply decode_encodeSigned; assumption).
      change (rev st ++ [n]) with (rev (n :: st)).
      apply IH; [assumption|]. cbn [length] in Hf. lia.
    + destruct st as [|a [|b st']].
      * now rewrite parseLocList_step_plus_short by (cbn; lia).
      * now rewrite parseLocList_step_plus_short by (cbn; lia).
      * replace (rev (a :: b :: st')) with (rev st' ++ [b; a])
          by (cbn [rev]; now rewrite <- app_assoc).
        rewrite parseLocList_step_plus.
        change (rev st' ++ [int64_of (a + b)]) with (rev (int64_of (a + b) :: st')).
        apply IH; [assumption|]. cbn [length] in Hf. lia.
    + change (parseLocList_step info (rev st) (x9c :: encode_ops ops ++ rest))
        with (@Continue (list Z * Reader)
                (rev st ++ [int64_of (CanonicalFrameAddress info)],
                 encode_ops ops ++ rest)).
      change (rev st ++ [int64_of (CanonicalFrameAddress info)])
        with (rev (int64_of (CanonicalFrameAddress info) :: st)).
      apply IH; [assumption|]. cbn [length] in Hf. lia.
Qed.

Lemma parseLocList_ops_run (info : locInfo) (ops : list locop) :
  Forall const_in_range ops ->
  parseLocList (encode_ops ops) info
  = Some match exec_ops (CanonicalFrameAddress info) ops [] with
         | Some [x] => OK (wrap64 x)
         | _ => Err ErrInvalidLocList
         end.
Proof.
  intros Hr. unfold parseLocList.
  pose proof (parseLocList_loop_ops info ops [] [] (S (length (encode_ops ops))) Hr) as L.
  rewrite app_nil_r in L. cbn [rev] in L. rewrite L by lia. clear L.
  destruct (exec_ops (CanonicalFrameAddress info) ops []) as [st|]; [|reflexivity].
  cbn [parseLocList_loop parseLocList_step ReadByte bindM length].
  rewrite length_rev.
  destruct st as [|x [|y st]]; cbn [length Nat.eqb]; try reflexivity.
Qed.

(** On the encoding of any list of the three operations, with constants in
    the 64-bit range, [parseLocList] computes what the stack machine
    computes: the single entry left, read unsigned, and the invalid-list
    error when an addition lacks operands or the final depth is not one. *)
Theorem parseLocList_encode_ops (info : locInfo) (ops : list locop) :
  Forall const_in_range ops ->
  parseLocList (encode_ops ops) info
  = Some match exec_ops (CanonicalFrameAddress info) ops [] with
         | Some [x] => OK (wrap64 x)
         | _ => Err ErrInvalidLocList
         end.
Proof. exact (parseLocList_ops_run info ops). Qed.

Lemma parseLocList_encode_ops_witness :
  parseLocList (encode_ops [OpConsts (-3); OpCallFrameCFA; OpPlus; OpConsts 5; OpPlus])
    {| CanonicalFrameAddress := 0x2000 |}
  = Some (OK (wrap64 (int64_of (5 + int64_of (int64_of 0x2000 + -3))))).
Proof.
  apply (parseLocList_encode_ops {| CanonicalFrameAddress := 0x2000 |}
           [OpConsts (-3); OpCallFrameCFA; OpPlus; OpConsts 5; OpPlus]).
  repeat constructor; cbn; lia.
Defined.

(** The expression "frame address, constant [n], add": the address [n]
    bytes from the canonical frame address, modulo [2 ^ 64]. *)
Theorem parseLocList_cfa_relative (cfa n : Z) :
  0 <= cfa < 2 ^ 64 -> - 2 ^ 63 <= n < 2 ^ 63 ->
  parseLocList ([x9c] ++ (x11 :: encodeSigned n) ++ [x22])
    {| CanonicalFrameAddress := cfa |}
  = Some (OK ((cfa + n) mod 2 ^ 64)).
Proof.
  intros Hc Hn.
  pose proof (parseLocList_ops_run {| CanonicalFrameAddress := cfa |}
                [OpCallFrameCFA; OpConsts n; OpPlus]) as E.
  cbn [encode_ops flat_map encode_op exec_ops exec_op CanonicalFrameAddress] in E.
  rewrite app_nil_r in E.
  rewrite E by (constructor; [exact I|constructor; [exact Hn|repeat constructor]]).
  do 2 f_equal. unfold wrap64, int64_of. Z.div_mod_to_equations. lia.
Qed.

Lemma parseLocList_cfa_relative_witness :
  parseLocList ([x9c] ++ (x11 :: encodeSigned (-24)) ++ [x22])
    {| CanonicalFrameAddress := 0x10010 |}
  = Some (OK ((0x10010 + -24) mod 2 ^ 64)).
Proof.
  apply (parseLocList_cfa_relative 0x10010 (-24)); lia.
Defined.

Lemma exec_ops_depth (cfa : Z) :
  forall ops st st',
  exec_ops cfa ops st = Some st' ->
  (length st' + count_plus ops = length st + count_pushes ops)%nat.
Proof.
  unfold count_plus, count_pushes.
  induction ops as [|op ops IH]; intros st st' H; cbn [exec_ops] in H.
  - inv H. cbn. lia.
  - destruct (exec_op cfa op st) as [st1|] eqn:E; [|discriminate].
    apply IH in H. cbn [filter].
    destruct op as [n| |]; cbn [exec_op is_push negb length] in *.
    + inv E. cbn [length] in H. lia.
    + destruct st as [|a [|b st2]]; try discriminate. inv E. cbn [length] in *. lia.
    + inv E. cbn [length] in H. lia.
Qed.

(** An encoded expression that evaluates to an address has exactly one
    push (constant or frame address) more than it has additions. *)
Theorem parseLocList_push_count (info : locInfo) (ops : list locop) (addr : Z) :
  Forall const_in_range ops ->
  parseLocList (encode_ops ops) info = Some (OK addr) ->
  count_pushes ops = S (count_plus ops).
Proof.
  intros Hr H. rewrite (parseLocList_ops_run info ops Hr) in H.
  destruct (exec_ops (CanonicalFrameAddress info) ops []) as [st|] eqn:E;
    [|discriminate].
  apply exec_ops_depth in E. destruct st as [|x [|y st]]; try discriminate.
  cbn [length] in E. lia.
Qed.

Lemma parseLocList_push_count_witness :
  count_pushes [OpConsts 5; OpConsts 3; OpPlus] = S (count_plus [OpConsts 5; OpConsts 3; OpPlus]).
Proof.
  apply (parseLocList_push_count {| CanonicalFrameAddress := 0 |}
           [OpConsts 5; OpConsts 3; OpPlus] 8).
  - repeat constructor; cbn; lia.
  - reflexivity.
Defined.

(** An expression that stops inside the operand of a constant, after
    operations that went well, fails with [io.EOF], not with the
    invalid-list error. *)
Theorem parseLocList_truncated_constant (info : locInfo) (ops : list locop)
  (st : list Z) (operand : list byte) :
  Forall const_in_range ops ->
  exec_ops (CanonicalFrameAddress info) ops [] = Some st ->
  leb_groups operand = None ->
  parseLocList (encode_ops ops ++ x11 :: operand) info = Some (Err EOF).
Proof.
  intros Hr E G. unfold parseLocList.
  pose proof (parseLocList_loop_ops info ops [] (x11 :: operand)
                (S (length (encode_ops ops ++ x11 :: operand))) Hr) as L.
  cbn [rev] in L. rewrite L by lia. clear L. rewrite E.
  rewrite parseLocList_loop_S. unfold parseLocList_step. cbn [ReadByte].
  change (u8 x11 =? dw_OP_consts) with true. cbv iota.
  unfold parseSignedLEB128. now rewrite (leb128_loop_unterminated _ G).
Qed.

Lemma parseLocList_truncated_constant_witness :
  parseLocList (encode_ops [OpCallFrameCFA] ++ x11 :: [x80; x80])
    {| CanonicalFrameAddress := 0x2000 |}
  = Some (Err EOF).
Proof.
  apply (parseLocList_truncated_constant {| CanonicalFrameAddress := 0x2000 |}
           [OpCallFrameCFA] [int64_of 0x2000] [x80; x80]).
  - repeat constructor.
  - reflexivity.
  - reflexivity.
Defined.

Lemma parseLocList_loop_errors (info : locInfo) :
  forall fuel stack stream e,
  parseLocList_loop fuel info stack stream = Some (Err e) ->
  e = EOF \/ e = ErrInvalidLocList \/ e = ErrUnsupportedLocOp.
Proof.
  induction fuel as [|fuel IH]; intros stack stream e H; [discriminate|].
  rewrite parseLocList_loop_S in H.
  destruct (parseLocList_step info stack stream) as [[stack' stream']| |e'] eqn:E.
  - now apply IH in H.
  - discriminate.
  - inv H. unfold parseLocList_step, ReadByte in E.
    destruct stream as [|b stream]; [discriminate|].
    destruct (u8 b =? dw_OP_consts).
    + destruct (parseSignedLEB128 stream) as [[n s]|e'] eqn:P; [discriminate|].
      inv E. left. unfold parseSignedLEB128, bind in P.
      destruct (leb128_loop stream 0 0) as [[[n sh] s]|e'] eqn:L.
      * destruct (negb _); discriminate.
      * inv P. exact (proj1 (leb128_loop_error _ _ _ _ L)).
    + destruct (u8 b =? dw_OP_plus).
      * destruct (length stack <? 2)%nat; [|discriminate]. inv E. tauto.
      * destruct (u8 b =? dw_OP_call_frame_cfa); [discriminate|]. inv E. tauto.
Qed.

(** Whatever the bytes, [parseLocList] returns, and a failure is one of
    three: the end of the input inside an operand, the invalid-list error,
    the unsupported-operation error. *)
Theorem parseLocList_errors (locList : list byte) (info : locInfo) :
  (exists addr, parseLocList locList info = Some (OK addr))
  \/ parseLocList locList info = Some (Err EOF)
  \/ parseLocList locList info = Some (Err ErrInvalidLocList)
  \/ parseLocList locList info = Some (Err ErrUnsupportedLocOp).
Proof.
  unfold parseLocList, bindM.
  pose proof (parseLocList_loop_total info (S (length locList)) [] locList) as T.
  pose proof (parseLocList_loop_errors info (S (length locList)) [] locList) as E.
  destruct (parseLocList_loop _ _ _ _) as [[stack|e]|].
  - destruct (length stack =? 1)%nat; [left; eauto|tauto].
  - destruct (E e eq_refl) as [ -> | [ -> | -> ] ]; tauto.
  - exfalso. apply T; [lia|reflexivity].
Qed.

(** ** entry.go *)

(** [Attribute] returns nil when no field carries the attribute, and the
    value of the first field that carries it otherwise, whatever fields
    follow. *)
Theorem Entry_Attribute_first (attr : Attr) :
  (forall fields,
     Forall (fun f => Field_Attr f <> attr) fields ->
     Entry_Attribute {| Entry_Field := fields |} attr = Nil)
  /\ (forall before f after,
        Forall (fun f => Field_Attr f <> attr) before ->
        Field_Attr f = attr ->
        Entry_Attribute {| Entry_Field := before ++ f :: after |} attr = Field_Val f).
Proof.
  unfold Entry_Attribute. cbn [Entry_Field]. split.
  - induction 1 as [|g fields Hg _ IH]; cbn [Attribute_loop]; [reflexivity|].
    destruct (Z.eqb_spec (Field_Attr g) attr); [contradiction|exact IH].
  - intros before f after Hb Hf.
    induction Hb as [|g before Hg _ IH]; cbn [Attribute_loop app].
    + destruct (Z.eqb_spec (Field_Attr f) attr); [reflexivity|contradiction].
    + destruct (Z.eqb_spec (Field_Attr g) attr); [contradiction|exact IH].
Qed.

Lemma Entry_Attribute_first_witness :
  Entry_Attribute
    {| Entry_Field := [ {| Field_Attr := 0x03; Field_Val := Other 1 |} ] |} 0x02 = Nil
  /\ Entry_Attribute
       {| Entry_Field := [ {| Field_Attr := 0x03; Field_Val := Other 1 |} ]
                         ++ {| Field_Attr := 0x02; Field_Val := Bytes [x9c] |}
                         :: [ {| Field_Attr := 0x02; Field_Val := Other 7 |} ] |} 0x02
     = Bytes [x9c].
Proof.
  split.
  - apply (proj1 (Entry_Attribute_first 0x02)). repeat constructor. discriminate.
  - apply (proj2 (Entry_Attribute_first 0x02)
             [ {| Field_Attr := 0x03; Field_Val := Other 1 |} ]
             {| Field_Attr := 0x02; Field_Val := Bytes [x9c] |}
             [ {| Field_Attr := 0x02; Field_Val := Other 7 |} ]).
    + repeat constructor. discriminate.
    + reflexivity.
Defined.

(** [Location] looks at the first field with the location attribute only:
    without such a field, or when the value of that field is not a byte
    slice, it fails with its own error, even if a later location field
    holds an expression; when the value is a byte slice, [Location] is
    [parseLocList] on it with the given frame address. *)
Theorem Entry_Location_first (cfa : Z) :
  (forall fields,
     Forall (fun f => Field_Attr f <> AttrLocation) fields ->
     Entry_Location {| Entry_Field := fields |} cfa = Some (inr ErrNoAttrLocation))
  /\ (forall before f after,
        Forall (fun f => Field_Attr f <> AttrLocation) before ->
        Field_Attr f = AttrLocation ->
        (forall b, Field_Val f <> Bytes b) ->
        Entry_Location {| Entry_Field := before ++ f :: after |} cfa
        = Some (inr ErrNoAttrLocation))
  /\ (forall before f after loclist,
        Forall (fun f => Field_Attr f <> AttrLocation) before ->
        Field_Attr f = AttrLocation ->
        Field_Val f = Bytes loclist ->
        Entry_Location {| Entry_Field := before ++ f :: after |} cfa
        = match parseLocList loclist {| CanonicalFrameAddress := cfa |} with
          | None => None
          | Some (OK addr) => Some (inl addr)
          | Some (Err e) => Some (inr (ErrLocList e))
          end).
Proof.
  assert (A1 : forall fields,
             Forall (fun f => Field_Attr f <> AttrLocation) fields ->
             Attribute_loop fields AttrLocation = Nil).
  { induction 1 as [|g fields Hg _ IH]; cbn [Attribute_loop]; [reflexivity|].
    destruct (Z.eqb_spec (Field_Attr g) AttrLocation); [contradiction|exact IH]. }
  assert (A2 : forall before f after,
             Forall (fun f => Field_Attr f <> AttrLocation) before ->
             Field_Attr f = AttrLocation ->
             Attribute_loop (before ++ f :: after) AttrLocation = Field_Val f).
  { intros before f after Hb Hf.
    induction Hb as [|g before Hg _ IH]; cbn [Attribute_loop app].
    - destruct (Z.eqb_spec (Field_Attr f) AttrLocation); [reflexivity|contradiction].
    - destruct (Z.eqb_spec (Field_Attr g) AttrLocation); [contradiction|exact IH]. }
  unfold Entry_Location, Entry_Attribute. cbn [Entry_Field].
  split; [|split].
  - intros fields H. now rewrite (A1 fields H).
  - intros before f after Hb Hf Hv. rewrite (A2 before f after Hb Hf).
    destruct (Field_Val f) as [|b|v]; try reflexivity. now elim (Hv b).
  - intros before f after loclist Hb Hf Hv.
    now rewrite (A2 before f after Hb Hf), Hv.
Qed.

Lemma Entry_Location_first_witness :
  Entry_Location
    {| Entry_Field := [ {| Field_Attr := 0x03; Field_Val := Bytes [x9c] |} ] |} 0x2000
  = Some (inr ErrNoAttrLocation)
  /\ Entry_Location
       {| Entry_Field := [] ++ {| Field_Attr := 0x02; Field_Val := Other 7 |}
                         :: [ {| Field_Attr := 0x02; Field_Val := Bytes [x9c] |} ] |}
       0x2000
     = Some (inr ErrNoAttrLocation)
  /\ Entry_Location
       {| Entry_Field := [] ++ {| Field_Attr := 0x02; Field_Val := Bytes [x9c] |}
                         :: [] |} 0x2000
     = Some (inl 0x2000).
Proof.
  pose proof (Entry_Location_first 0x2000) as (H1 & H2 & H3).
  split; [|split].
  - apply H1. repeat constructor. discriminate.
  - apply (H2 [] {| Field_Attr := 0x02; Field_Val := Other 7 |}
              [ {| Field_Attr := 0x02; Field_Val := Bytes [x9c] |} ]).
    + constructor.
    + reflexivity.
    + discriminate.
  - exact (H3 [] {| Field_Attr := 0x02; Field_Val := Bytes [x9c] |} [] [x9c]
              (Forall_nil _) eq_refl eq_refl).
Defined.

(** ** The scan: skipped records *)

Lemma Data_CanonicalFrameAddress_loop_fuel (d : Data) (pc sp : Z) :
  forall fuel1 fuel2 stream,
  (length stream < fuel1)%nat -> (length stream < fuel2)%nat ->
  Data_CanonicalFrameAddress_loop fuel1 d pc sp stream
  = Data_CanonicalFrameAddress_loop fuel2 d pc sp stream.
Proof.
  induction fuel1 as [|fuel1 IH]; intros fuel2 stream H1 H2; [lia|].
  destruct fuel2 as [|fuel2]; [lia|].
  rewrite !Data_CanonicalFrameAddress_loop_S. unfold bindM, lift.
  destruct (binary_Read_uint32 (order d) stream) as [[len s1]|] eqn:R1; [|reflexivity].
  apply binary_Read_uint32_shorter in R1.
  destruct (len <? 4); [reflexivity|].
  destruct (binary_Read_uint32 (order d) s1) as [[id s2]|] eqn:R2; [|reflexivity].
  apply binary_Read_uint32_shorter in R2.
  destruct (id =? 0xFFFFFFFF).
  { pose proof (Seek_cur_length (len - 4) s2). apply IH; lia. }
  destruct (len <? 20); [reflexivity|].
  destruct (binary_Read_uint64 (order d) s2) as [[pcstart s3]|] eqn:R3; [|reflexivity].
  apply binary_Read_uint64_shorter in R3.
  destruct (binary_Read_uint64 (order d) s3) as [[pccount s4]|] eqn:R4; [|reflexivity].
  apply binary_Read_uint64_shorter in R4.
  destruct ((pcstart <=? pc) && (pc <? wrap64 (pcstart + pccount))); [reflexivity|].
  pose proof (Seek_cur_length (len - 20) s4). apply IH; lia.
Qed.

(** A bare CIE met by the scan, at any place of the region, is stepped over
    by its length field: the scan goes on with the record that follows, and
    the bytes of the CIE have no part in the result at this point. *)
Theorem scan_skips_CIE (d : Data) (pc sp : Z) (fuel : nat) (stream : Reader)
  (len : Z) (s1 s2 : Reader) :
  (length stream < fuel)%nat ->
  binary_Read_uint32 (order d) stream = OK (len, s1) ->
  4 <= len ->
  binary_Read_uint32 (order d) s1 = OK (0xFFFFFFFF, s2) ->
  Data_CanonicalFrameAddress_loop fuel d pc sp stream
  = Data_CanonicalFrameAddress_loop
      (S (length (skipn (Z.to_nat (len - 4)) s2))) d pc sp
      (skipn (Z.to_nat (len - 4)) s2).
Proof.
  intros Hf R1 Hlen R2. destruct fuel as [|fuel]; [lia|].
  rewrite Data_CanonicalFrameAddress_loop_S, R1. cbn [lift bindM].
  assert ((len <? 4) = false) as -> by (apply Z.ltb_ge; lia).
  rewrite R2. cbn [lift bindM]. change (4294967295 =? 4294967295) with true. cbv iota.
  apply binary_Read_uint32_shorter in R1, R2.
  pose proof (Seek_cur_length (len - 4) s2) as Hs. unfold Seek_cur in *.
  apply Data_CanonicalFrameAddress_loop_fuel; lia.
Qed.

Lemma scan_skips_CIE_witness :
  Data_CanonicalFrameAddress_loop 44 example_data 0x2000 0x10000 (frame example_data)
  = Data_CanonicalFrameAddress_loop 28 example_data 0x2000 0x10000 example_fde.
Proof.
  apply (scan_skips_CIE example_data 0x2000 0x10000 44 (frame example_data) 12
           (skipn 4 (frame example_data)) (skipn 8 (frame example_data))).
  - cbn. lia.
  - reflexivity.
  - lia.
  - reflexivity.
Defined.

(** An FDE is stepped over when [pc] lies outside its range, and also,
    whatever [pc] is, when the end of its range [pcstart + pccount] does not
    fit into 64 bits: the end wraps round to below [pcstart]. *)
Theorem scan_skips_FDE (d : Data) (pc sp : Z) (fuel : nat) (stream : Reader)
  (len id pcstart pccount : Z) (s1 s2 s3 s4 : Reader) :
  (length stream < fuel)%nat ->
  binary_Read_uint32 (order d) stream = OK (len, s1) ->
  20 <= len ->
  binary_Read_uint32 (order d) s1 = OK (id, s2) ->
  id <> 0xFFFFFFFF ->
  binary_Read_uint64 (order d) s2 = OK (pcstart, s3) ->
  binary_Read_uint64 (order d) s3 = OK (pccount, s4) ->
  pcstart < 2 ^ 64 -> pccount < 2 ^ 64 ->
  ~ (pcstart <= pc < pcstart + pccount) \/ 2 ^ 64 <= pcstart + pccount ->
  Data_CanonicalFrameAddress_loop fuel d pc sp stream
  = Data_CanonicalFrameAddress_loop
      (S (length (skipn (Z.to_nat (len - 20)) s4))) d pc sp
      (skipn (Z.to_nat (len - 20)) s4).
Proof.
  intros Hf R1 Hlen R2 Hid R3 R4 Hs Hc Hout. destruct fuel as [|fuel]; [lia|].
  rewrite Data_CanonicalFrameAddress_loop_S, R1. cbn [lift bindM].
  assert ((len <? 4) = false) as -> by (apply Z.ltb_ge; lia).
  rewrite R2. cbn [lift bindM].
  destruct (Z.eqb_spec id 4294967295); [contradiction|].
  assert ((len <? 20) = false) as -> by (apply Z.ltb_ge; lia).
  rewrite R3. cbn [lift bindM]. rewrite R4. cbn [lift bindM].
  pose proof (binary_Read_uint64_result (order d) s2) as P3. rewrite R3 in P3.
  pose proof (binary_Read_uint64_result (order d) s3) as P4. rewrite R4 in P4.
  assert (((pcstart <=? pc) && (pc <? wrap64 (pcstart + pccount))) = false) as ->.
  { apply andb_false_iff.
    destruct (Z.leb_spec pcstart pc); [right|now left]. apply Z.ltb_ge.
    unfold wrap64. destruct (Z.lt_ge_cases (pcstart + pccount) (2 ^ 64)).
    - rewrite Z.mod_small by lia. destruct Hout; lia.
    - assert ((pcstart + pccount) mod 2 ^ 64 = pcstart + pccount - 2 ^ 64)
        by (symmetry; apply (Z.mod_unique _ _ 1); lia).
      lia. }
  apply binary_Read_uint32_shorter in R1, R2.
  apply binary_Read_uint64_shorter in R3, R4.
  pose proof (Seek_cur_length (len - 20) s4) as Hk. unfold Seek_cur in *.
  apply Data_CanonicalFrameAddress_loop_fuel; lia.
Qed.

(** An FDE from 0xffffffffffffff00 with range 0x100 is stepped over for a
    [pc] inside it. *)
Lemma scan_skips_FDE_witness :
  Data_CanonicalFrameAddress_loop 28
    {| frame := fde_record LittleEndian 0 0xffffffffffffff00 0x100 [x63; x13; x02];
       order := LittleEndian |}
    0xffffffffffffff10 0x10000
    (fde_record LittleEndian 0 0xffffffffffffff00 0x100 [x63; x13; x02])
  = Data_CanonicalFrameAddress_loop 1
      {| frame := fde_record LittleEndian 0 0xffffffffffffff00 0x100 [x63; x13; x02];
         order := LittleEndian |}
      0xffffffffffffff10 0x10000 [].
Proof.
  apply (scan_skips_FDE
           {| frame := fde_record LittleEndian 0 0xffffffffffffff00 0x100 [x63; x13; x02];
              order := LittleEndian |}
           0xffffffffffffff10 0x10000 28
           (fde_record LittleEndian 0 0xffffffffffffff00 0x100 [x63; x13; x02])
           23 0 0xffffffffffffff00 0x100
           (skipn 4 (fde_record LittleEndian 0 0xffffffffffffff00 0x100 [x63; x13; x02]))
           (skipn 8 (fde_record LittleEndian 0 0xffffffffffffff00 0x100 [x63; x13; x02]))
           (skipn 16 (fde_record LittleEndian 0 0xffffffffffffff00 0x100 [x63; x13; x02]))
           (skipn 24 (fde_record LittleEndian 0 0xffffffffffffff00 0x100 [x63; x13; x02]))).
  - cbn. lia.
  - reflexivity.
  - lia.
  - reflexivity.
  - discriminate.
  - reflexivity.
  - reflexivity.
  - lia.
  - lia.
  - right. lia.
Defined.

Lemma Data_CanonicalFrameAddress_uncovered_witness :
  exists e, Data_CanonicalFrameAddress example_data 0x2100 0x10000 = Some (Err e)
            /\ scan_error e.
Proof.
  apply (Data_CanonicalFrameAddress_uncovered example_data 0x2100 0x10000).
  intros pcstart pccount Hin.
  vm_compute in Hin. destruct Hin as [Hin|[]]. inv Hin. lia.
Defined.

(** ** Fixed-width fields *)

Lemma u8_byte_of_Z_wrap (z : Z) : u8 (byte_of_Z z) = z mod 256.
Proof.
  unfold byte_of_Z, wrap8. change (2 ^ 8) with 256.
  pose proof (Z.mod_pos_bound z 256 eq_refl) as B.
  destruct (Byte.of_N (Z.to_N (z mod 256))) as [b|] eqn:E.
  - apply Byte.to_of_N in E. unfold u8. rewrite E. lia.
  - apply Byte.of_N_None_iff in E. lia.
Qed.

Lemma le_bytes_length (width : nat) : forall n, length (le_bytes width n) = width.
Proof.
  induction width as [|width IH]; intros n; cbn [le_bytes length]; [reflexivity|].
  now rewrite IH.
Qed.

Lemma le_uint_le_bytes (width : nat) :
  forall n, le_uint (le_bytes width n) = n mod 256 ^ Z.of_nat width.
Proof.
  induction width as [|width IH]; intros n; cbn [le_bytes le_uint].
  - change (256 ^ Z.of_nat 0) with 1. now rewrite Z.mod_1_r.
  - rewrite IH, u8_byte_of_Z_wrap, Nat2Z.inj_succ, Z.pow_succ_r by lia.
    rewrite Z.rem_mul_r by (try apply Z.pow_pos_nonneg; lia). reflexivity.
Qed.

Lemma put_uint_length (o : ByteOrder) (width : nat) (n : Z) :
  length (put_uint o width n) = width.
Proof. destruct o; cbn [put_uint]; rewrite ?length_rev; apply le_bytes_length. Qed.

Lemma order_uint_put_uint (o : ByteOrder) (width : nat) (n : Z) :
  0 <= n < 256 ^ Z.of_nat width -> order_uint o (put_uint o width n) = n.
Proof.
  intros Hn. destruct o; cbn [put_uint order_uint]; rewrite ?rev_involutive;
    rewrite le_uint_le_bytes; now apply Z.mod_small.
Qed.

Lemma binary_Read_uint32_put (o : ByteOrder) (n : Z) (rest : Reader) :
  0 <= n < 2 ^ 32 ->
  binary_Read_uint32 o (put_uint o 4 n ++ rest) = OK (n, rest).
Proof.
  intros Hn. unfold binary_Read_uint32.
  rewrite <- (put_uint_length o 4 n) at 1.
  rewrite ReadFull_app by (rewrite put_uint_length; lia).
  cbn [bind]. now rewrite order_uint_put_uint.
Qed.

Lemma binary_Read_uint64_put (o : ByteOrder) (n : Z) (rest : Reader) :
  0 <= n < 2 ^ 64 ->
  binary_Read_uint64 o (put_uint o 8 n ++ rest) = OK (n, rest).
Proof.
  intros Hn. unfold binary_Read_uint64.
  rewrite <- (put_uint_length o 8 n) at 1.
  rewrite ReadFull_app by (rewrite put_uint_length; lia).
  cbn [bind]. now rewrite order_uint_put_uint.
Qed.

(** ** Loading a CIE: what is read *)

Lemma firstn_repeat_x00 (m k : nat) :
  firstn m (repeat x00 k) = repeat x00 (Nat.min m k).
Proof.
  revert k. induction m as [|m IH]; intros [|k]; cbn; try reflexivity.
  now rewrite IH.
Qed.

(** The sub-stream cut out for a record does not change when zero bytes
    follow the region. *)
Lemma entry_zero_padded (n k : nat) (body : list byte) :
  firstn n (body ++ repeat x00 k)
  ++ repeat x00 (n - length (firstn n (body ++ repeat x00 k)))
  = firstn n body ++ repeat x00 (n - length (firstn n body)).
Proof.
  rewrite firstn_app, firstn_repeat_x00.
  rewrite length_app, repeat_length, <- app_assoc, <- repeat_app.
  do 2 f_equal. rewrite length_firstn. lia.
Qed.

Lemma entry_complete (n : nat) (body extra : list byte) :
  (n <= length body)%nat ->
  firstn n (body ++ extra) ++ repeat x00 (n - length (firstn n (body ++ extra)))
  = firstn n body ++ repeat x00 (n - length (firstn n body)).
Proof.
  intros Hn. rewrite firstn_app.
  replace (n - length body)%nat with 0%nat by lia. cbn [firstn].
  now rewrite app_nil_r.
Qed.

Lemma parseCommonInformationEntry_congr (d1 d2 : Data) (id len : Z)
  (body1 body2 : Reader) :
  order d1 = order d2 ->
  binary_Read_uint32 (order d1) (skipn (Z.to_nat id) (frame d1)) = OK (len, body1) ->
  binary_Read_uint32 (order d2) (skipn (Z.to_nat id) (frame d2)) = OK (len, body2) ->
  body1 <> [] -> body2 <> [] ->
  firstn (Z.to_nat len) body1
  ++ repeat x00 (Z.to_nat len - length (firstn (Z.to_nat len) body1))
  = firstn (Z.to_nat len) body2
    ++ repeat x00 (Z.to_nat len - length (firstn (Z.to_nat len) body2)) ->
  Data_parseCommonInformationEntry d1 id = Data_parseCommonInformationEntry d2 id.
Proof.
  intros Ho R1 R2 N1 N2 E. unfold Data_parseCommonInformationEntry.
  rewrite R1, R2. cbn [lift bindM]. unfold Reader_Read.
  destruct body1 as [|b1 body1]; [contradiction|].
  destruct body2 as [|b2 body2]; [contradiction|].
  cbn [bindM]. cbv zeta. rewrite E, Ho. reflexivity.
Qed.

Lemma binary_Read_uint32_app (o : ByteOrder) (stream extra : Reader) (v : Z)
  (stream' : Reader) :
  binary_Read_uint32 o stream = OK (v, stream') ->
  binary_Read_uint32 o (stream ++ extra) = OK (v, stream' ++ extra).
Proof.
  unfold binary_Read_uint32, bind. intros H.
  destruct (ReadFull 4 stream) as [[bs s]|] eqn:R; [|discriminate]. inv H.
  apply ReadFull_inv in R. destruct R as [-> Hl].
  rewrite <- app_assoc, <- Hl, ReadFull_app by lia. reflexivity.
Qed.

Lemma skipn_app_inside {A : Type} (n : nat) (l extra : list A) :
  skipn n l <> [] -> skipn n (l ++ extra) = skipn n l ++ extra.
Proof.
  intros H. rewrite skipn_app.
  assert (n < length l)%nat.
  { destruct (Nat.lt_ge_cases n (length l)); [assumption|].
    now rewrite skipn_all2 in H. }
  replace (n - length l)%nat with 0%nat by lia. reflexivity.
Qed.

(** [parseCommonInformationEntry] confines itself to the record: bytes
    added to the region behind a complete record do not change what it
    returns.  A record cut short by the end of the region, of which at
    least one byte follows the length field, is read as if zero bytes
    (nops) filled it up.  A record cut right behind its length field is
    not: it fails with [io.EOF], where the same record filled up with zero
    bytes is refused for its mark. *)
Theorem parseCommonInformationEntry_isolated (d : Data) (id len : Z) (body : Reader) :
  binary_Read_uint32 (order d) (skipn (Z.to_nat id) (frame d)) = OK (len, body) ->
  (forall extra,
     (Z.to_nat len <= length body)%nat ->
     Data_parseCommonInformationEntry
       {| frame := frame d ++ extra; order := order d |} id
     = Data_parseCommonInformationEntry d id)
  /\ (body <> [] ->
      forall k,
      Data_parseCommonInformationEntry
        {| frame := frame d ++ repeat x00 k; order := order d |} id
      = Data_parseCommonInformationEntry d id)
  /\ (body = [] ->
      Data_parseCommonInformationEntry d id = Some (Err EOF)
      /\ (4 <= len ->
          forall k, (0 < k)%nat ->
          Data_parseCommonInformationEntry
            {| frame := frame d ++ repeat x00 k; order := order d |} id
          = Some (Err (ErrNoCIE id)))).
Proof.
  intros R.
  assert (Hs : skipn (Z.to_nat id) (frame d) <> []).
  { intros E. rewrite E in R. discriminate. }
  assert (R' : forall extra,
             binary_Read_uint32 (order d)
               (skipn (Z.to_nat id) (frame d ++ extra)) = OK (len, body ++ extra)).
  { intros extra. rewrite skipn_app_inside by exact Hs.
    now apply binary_Read_uint32_app. }
  assert (Hb' : body <> [] -> forall extra, body ++ extra <> []).
  { intros Hb extra E. apply app_eq_nil in E. now destruct E. }
  split; [|split].
  - intros extra Hn. destruct body as [|b body].
    + cbn [length] in Hn. unfold Data_parseCommonInformationEntry.
      cbn [frame order]. rewrite R', R. cbn [app lift bindM].
      replace (Z.to_nat len) with 0%nat by lia.
      destruct extra as [|e extra]; reflexivity.
    + apply (parseCommonInformationEntry_congr _ d id len ((b :: body) ++ extra)
               (b :: body)); cbn [frame order]; auto; try discriminate.
      now apply entry_complete.
  - intros Hb k.
    apply (parseCommonInformationEntry_congr _ d id len (body ++ repeat x00 k) body);
      cbn [frame order]; auto.
    apply entry_zero_padded.
  - intros ->. split.
    + unfold Data_parseCommonInformationEntry. now rewrite R.
    + intros Hlen k Hk. unfold Data_parseCommonInformationEntry.
      cbn [frame order]. rewrite R'. cbn [lift bindM].
      unfold Reader_Read. destruct k as [|k]; [lia|].
      cbn [app repeat bindM]. cbv zeta.
      change (x00 :: repeat x00 k) with ([] ++ repeat x00 (S k)).
      rewrite entry_zero_padded, firstn_nil. cbn [app length].
      rewrite Nat.sub_0_r.
      replace (Z.to_nat len) with (4 + (Z.to_nat len - 4))%nat by lia.
      rewrite repeat_app. cbn [repeat app].
      assert ((len <? 4) = false) as -> by (apply Z.ltb_ge; lia).
      destruct (order d); reflexivity.
Qed.

(** The CIE of the worked example with bytes behind it; the same CIE with
    its last byte (the offset operand) cut off and one zero byte in its
    place; and a region that ends behind the length field of a record. *)
Lemma parseCommonInformationEntry_isolated_witness :
  Data_parseCommonInformationEntry
    {| frame := example_cie ++ example_fde; order := LittleEndian |} 0
  = Data_parseCommonInformationEntry
      {| frame := example_cie; order := LittleEndian |} 0
  /\ Data_parseCommonInformationEntry
       {| frame := [x0c; x00; x00; x00; xff; xff; xff; xff;
                    x03; x00; x01; x78; x10; x0c; x07] ++ repeat x00 1;
          order := LittleEndian |} 0
     = Data_parseCommonInformationEntry
         {| frame := [x0c; x00; x00; x00; xff; xff; xff; xff;
                      x03; x00; x01; x78; x10; x0c; x07];
            order := LittleEndian |} 0
  /\ Data_parseCommonInformationEntry
       {| frame := [x0c; x00; x00; x00]; order := LittleEndian |} 0
     = Some (Err EOF)
  /\ Data_parseCommonInformationEntry
       {| frame := [x0c; x00; x00; x00] ++ repeat x00 12; order := LittleEndian |} 0
     = Some (Err (ErrNoCIE 0)).
Proof.
  split; [|split; [|split]].
  - apply (proj1 (parseCommonInformationEntry_isolated
                    {| frame := example_cie; order := LittleEndian |} 0 12
                    (skipn 4 example_cie) eq_refl)
             example_fde).
    cbn. lia.
  - apply (proj1 (proj2 (parseCommonInformationEntry_isolated
                    {| frame := [x0c; x00; x00; x00; xff; xff; xff; xff;
                                 x03; x00; x01; x78; x10; x0c; x07];
                       order := LittleEndian |} 0 12
                    [xff; xff; xff; xff; x03; x00; x01; x78; x10; x0c; x07]
                    eq_refl))
             ltac:(discriminate) 1%nat).
  - exact (proj1 (proj2 (proj2 (parseCommonInformationEntry_isolated
                    {| frame := [x0c; x00; x00; x00]; order := LittleEndian |} 0 12
                    [] eq_refl)) eq_refl)).
  - apply (proj2 (proj2 (proj2 (parseCommonInformationEntry_isolated
                    {| frame := [x0c; x00; x00; x00]; order := LittleEndian |} 0 12
                    [] eq_refl)) eq_refl)).
    + lia.
    + lia.
Defined.

(** An offset at which no CIE stands: a record of at least four bytes
    whose mark is not all-ones is refused with the no-CIE error that names
    the offset; a record with a length field below four is never told apart
    as such, the read of its mark fails first. *)
Theorem parseCommonInformationEntry_not_a_CIE (d : Data) (id len : Z) (body : Reader) :
  binary_Read_uint32 (order d) (skipn (Z.to_nat id) (frame d)) = OK (len, body) ->
  (forall mark tail,
     binary_Read_uint32 (order d) body = OK (mark, tail) ->
     4 <= len -> mark <> 0xFFFFFFFF ->
     Data_parseCommonInformationEntry d id = Some (Err (ErrNoCIE id)))
  /\ (len < 4 ->
      Data_parseCommonInformationEntry d id = Some (Err EOF)
      \/ Data_parseCommonInformationEntry d id = Some (Err ErrUnexpectedEOF)).
Proof.
  intros R. split.
  - intros mark tail Hm Hlen Hmark.
    unfold binary_Read_uint32, bind in Hm.
    destruct (ReadFull 4 body) as [[m s]|] eqn:RF; [|discriminate]. inv Hm.
    apply ReadFull_inv in RF. destruct RF as [-> Hl].
    destruct (Reader_Read_entry (Z.to_nat len) m [] tail) as (tail' & junk & RR);
      [lia|cbn [length]; lia|].
    cbn [app] in RR.
    unfold Data_parseCommonInformationEntry. rewrite R. cbn [lift bindM].
    rewrite RR. cbn [bindM]. unfold binary_Read_uint32 at 1.
    rewrite <- Hl at 1. rewrite ReadFull_app by lia. cbn [bind lift bindM].
    assert ((len <? 4) = false) as -> by (apply Z.ltb_ge; lia).
    destruct (Z.eqb_spec (order_uint (order d) m) 4294967295); [contradiction|].
    reflexivity.
  - intros Hlen. unfold Data_parseCommonInformationEntry. rewrite R.
    cbn [lift bindM]. unfold Reader_Read.
    destruct body as [|b body]; [now left|]. cbn [bindM]. cbv zeta.
    set (entry := firstn (Z.to_nat len) (b :: body) ++ _).
    assert (He : length entry = Z.to_nat len).
    { unfold entry. rewrite length_app, repeat_length, length_firstn. lia. }
    unfold binary_Read_uint32, ReadFull.
    destruct entry as [|e entry]; [now left|].
    destruct (Nat.ltb_spec (length (e :: entry)) 4); [now right|lia].
Qed.

(** An FDE taken for a CIE: the worked example asked for offset 16. *)
Lemma parseCommonInformationEntry_not_a_CIE_witness :
  Data_parseCommonInformationEntry example_data 16 = Some (Err (ErrNoCIE 16)).
Proof.
  apply (proj1 (parseCommonInformationEntry_not_a_CIE example_data 16 23
                  (skipn 20 (frame example_data)) eq_refl)
           0 (skipn 24 (frame example_data)) eq_refl).
  - lia.
  - discriminate.
Defined.

(** ** The initial instructions: what they can change *)

Lemma Update_step_fields (cie : CommonInformationEntry) (stream : Reader)
  (cie' : CommonInformationEntry) (stream' : Reader) :
  Update_step cie stream = OK (cie', stream') ->
  CodeAlignmentFactor cie' = CodeAlignmentFactor cie
  /\ DataAlignmentFactor cie' = DataAlignmentFactor cie
  /\ ReturnColumn cie' = ReturnColumn cie
  /\ InitialLocation cie' = InitialLocation cie
  /\ AddressRange cie' = AddressRange cie
  /\ Instructions cie' = Instructions cie
  /\ cie_order cie' = cie_order cie.
Proof.
  unfold Update_step, ReadByte, bind. intros H.
  destruct stream as [|b stream]; [discriminate|].
  repeat break_match_hyp; try discriminate; inv H; repeat split.
Qed.

Lemma Update_step_ColumnValue (cie : CommonInformationEntry) (stream : Reader)
  (cie' : CommonInformationEntry) (stream' : Reader) :
  wrap8 (dw_CFA_offset + u8 (ReturnColumn cie)) = dw_CFA_nop
  \/ wrap8 (dw_CFA_offset + u8 (ReturnColumn cie)) = dw_CFA_def_cfa ->
  Update_step cie stream = OK (cie', stream') ->
  ColumnValue cie' = ColumnValue cie.
Proof.
  unfold Update_step, ReadByte, bind. intros Hrc H.
  destruct stream as [|b stream]; [discriminate|].
  destruct (Z.eqb_spec (u8 b) dw_CFA_def_cfa) as [E1|N1].
  - repeat break_match_hyp; try discriminate; now inv H.
  - destruct (Z.eqb_spec (u8 b) dw_CFA_nop) as [E2|N2]; [now inv H|].
    destruct (Z.eqb_spec (u8 b) (wrap8 (dw_CFA_offset + u8 (ReturnColumn cie))))
      as [E3|N3]; [|discriminate].
    destruct Hrc; congruence.
Qed.

(** [Update] changes the CFA rule and the value of the return column and
    nothing else of the entry: the alignment factors, the return column, the
    bound location, range, instructions and byte order stay as they were,
    whatever the instruction bytes are and however [Update] ends. *)
Theorem CommonInformationEntry_Update_preserves :
  forall fuel cie stream cie' e,
  CommonInformationEntry_Update fuel cie stream = Some (cie', e) ->
  CodeAlignmentFactor cie' = CodeAlignmentFactor cie
  /\ DataAlignmentFactor cie' = DataAlignmentFactor cie
  /\ ReturnColumn cie' = ReturnColumn cie
  /\ InitialLocation cie' = InitialLocation cie
  /\ AddressRange cie' = AddressRange cie
  /\ Instructions cie' = Instructions cie
  /\ cie_order cie' = cie_order cie.
Proof.
  induction fuel as [|fuel IH]; intros cie stream cie' e H; [discriminate|].
  cbn [CommonInformationEntry_Update] in H.
  destruct (Update_step cie stream) as [[cie1 stream1]|e1] eqn:E.
  - apply Update_step_fields in E. apply IH in H.
    destruct E as (E1 & E2 & E3 & E4 & E5 & E6 & E7).
    destruct H as (H1 & H2 & H3 & H4 & H5 & H6 & H7).
    repeat split; congruence.
  - inv H. repeat split.
Qed.

Lemma CommonInformationEntry_Update_preserves_witness :
  CodeAlignmentFactor (set_def_cfa (new_CommonInformationEntry 1 (-8) x10) 7 8) = 1
  /\ DataAlignmentFactor (set_def_cfa (new_CommonInformationEntry 1 (-8) x10) 7 8) = -8
  /\ ReturnColumn (set_def_cfa (new_CommonInformationEntry 1 (-8) x10) 7 8) = x10
  /\ InitialLocation (set_def_cfa (new_CommonInformationEntry 1 (-8) x10) 7 8) = 0
  /\ AddressRange (set_def_cfa (new_CommonInformationEntry 1 (-8) x10) 7 8) = 0
  /\ Instructions (set_def_cfa (new_CommonInformationEntry 1 (-8) x10) 7 8) = []
  /\ cie_order (set_def_cfa (new_CommonInformationEntry 1 (-8) x10) 7 8) = LittleEndian.
Proof.
  exact (CommonInformationEntry_Update_preserves 4
           (new_CommonInformationEntry 1 (-8) x10) [x0c; x07; x08]
           (set_def_cfa (new_CommonInformationEntry 1 (-8) x10) 7 8) EOF eq_refl).
Defined.

(** When the opcode computed for the return column, 0x80 plus the column
    in byte arithmetic, comes out as nop or def_cfa (columns 0x80 and 0x8c),
    the cases in front of it in the switch take the opcode and the value of
    the return column is never set. *)
Theorem CommonInformationEntry_Update_column_shadowed :
  forall fuel cie stream cie' e,
  u8 (ReturnColumn cie) = 0x80 \/ u8 (ReturnColumn cie) = 0x8c ->
  CommonInformationEntry_Update fuel cie stream = Some (cie', e) ->
  ColumnValue cie' = ColumnValue cie.
Proof.
  induction fuel as [|fuel IH]; intros cie stream cie' e Hrc H; [discriminate|].
  cbn [CommonInformationEntry_Update] in H.
  destruct (Update_step cie stream) as [[cie1 stream1]|e1] eqn:E.
  - pose proof (Update_step_fields _ _ _ _ E) as (_ & _ & E3 & _).
    apply Update_step_ColumnValue in E.
    + rewrite <- E. apply (IH _ _ _ _ ltac:(rewrite E3; exact Hrc) H).
    + destruct Hrc as [-> | ->]; [now left|now right].
  - now inv H.
Qed.

(** Return column 0x8c: the bytes 0x0c 0x07 0x08 are def_cfa(7, 8), not
    offset(column) with operand 7. *)
Lemma CommonInformationEntry_Update_column_shadowed_witness :
  ColumnValue (set_def_cfa (new_CommonInformationEntry 1 (-8) x8c) 7 8)
  = ColumnValue (new_CommonInformationEntry 1 (-8) x8c).
Proof.
  apply (CommonInformationEntry_Update_column_shadowed 4
           (new_CommonInformationEntry 1 (-8) x8c) [x0c; x07; x08]
           (set_def_cfa (new_CommonInformationEntry 1 (-8) x8c) 7 8) EOF).
  - right. reflexivity.
  - reflexivity.
Defined.

(** ** The replay on advance/offset pairs *)

Lemma CanonicalFrameAddress_step_offset (cie : CommonInformationEntry)
  (pc loc offset : Z) (stream : Reader) (delta : Z) (stream' : Reader) :
  parseSignedLEB128 stream = OK (delta, stream') ->
  CanonicalFrameAddress_step cie pc loc offset (x13 :: stream)
  = Continue (loc, int64_of (delta * DataAlignmentFactor cie), stream').
Proof.
  intros P. unfold CanonicalFrameAddress_step. cbn [ReadByte].
  change (u8 x13 =? dw_CFA_def_cfa_offset_sf) with true. cbv iota. now rewrite P.
Qed.

Lemma CanonicalFrameAddress_step_stop (cie : CommonInformationEntry)
  (pc loc offset : Z) (op : byte) (stream : Reader) :
  u8 op <> dw_CFA_def_cfa_offset_sf -> loc > pc ->
  CanonicalFrameAddress_step cie pc loc offset (op :: stream) = Break.
Proof.
  intros Hop Hloc. unfold CanonicalFrameAddress_step. cbn [ReadByte].
  destruct (Z.eqb_spec (u8 op) dw_CFA_def_cfa_offset_sf); [contradiction|].
  destruct (Z.gtb_spec loc pc); [reflexivity|lia].
Qed.

Lemma encode_pairs_length (p : Z * Z) (pairs : list (Z * Z)) :
  (length (encode_pairs pairs) + 3 <= length (encode_pairs (p :: pairs)))%nat.
Proof.
  change (encode_pairs (p :: pairs)) with (encode_pair p ++ encode_pairs pairs).
  rewrite length_app. unfold encode_pair. cbn [length].
  pose proof (encodeSigned_nonempty (snd p)). lia.
Qed.

Lemma CanonicalFrameAddress_loop_pairs (cie : CommonInformationEntry) (pc : Z) :
  forall pairs loc offset fuel,
  Forall pair_in_range pairs ->
  (length (encode_pairs pairs) < fuel)%nat ->
  CanonicalFrameAddress_loop fuel cie pc loc offset (encode_pairs pairs)
  = Some (OK (rule_in_effect (CodeAlignmentFactor cie) (DataAlignmentFactor cie)
                pc loc offset pairs)).
Proof.
  induction pairs as [|[d c] pairs IH]; intros loc offset fuel Hr Hf.
  - destruct fuel; [lia|]. reflexivity.
  - inv Hr. match goal with H : pair_in_range _ |- _ => destruct H as [Hd Hc] end.
    cbn [fst snd] in Hd, Hc.
    pose proof (encode_pairs_length (d, c) pairs) as Hl.
    destruct fuel as [|[|fuel]]; [lia|lia|].
    change (encode_pairs ((d, c) :: pairs))
      with (byte_of_Z (0x40 + d) :: x13 :: encodeSigned c ++ encode_pairs pairs) in *.
    assert (Hop : u8 (byte_of_Z (0x40 + d)) = 0x40 + d) by (apply u8_byte_of_Z; lia).
    rewrite CanonicalFrameAddress_loop_S. cbn [rule_in_effect].
    destruct (Z.gtb_spec loc pc) as [Hgt|Hle].
    + rewrite CanonicalFrameAddress_step_stop; [reflexivity| |lia].
      rewrite Hop. change dw_CFA_def_cfa_offset_sf with 19. lia.
    + rewrite CanonicalFrameAddress_step_inline by (rewrite ?Hop; lia).
      rewrite Hop. replace (64 + d - 64) with d by lia.
      rewrite CanonicalFrameAddress_loop_S.
      rewrite (CanonicalFrameAddress_step_offset cie pc _ _ _ c (encode_pairs pairs))
        by (apply decode_encodeSigned; exact Hc).
      apply IH; [assumption|]. cbn [length] in Hl, Hf. lia.
Qed.

Lemma replay_pairs_run (cie : CommonInformationEntry) (pc sp : Z)
  (pairs : list (Z * Z)) :
  Instructions cie = encode_pairs pairs ->
  Forall pair_in_range pairs ->
  CommonInformationEntry_CanonicalFrameAddress cie pc sp
  = replay_result sp
      (rule_in_effect (CodeAlignmentFactor cie) (DataAlignmentFactor cie) pc
         (InitialLocation cie) (StackOffset cie) pairs).
Proof.
  intros Hi Hr. unfold CommonInformationEntry_CanonicalFrameAddress.
  rewrite Hi, CanonicalFrameAddress_loop_pairs by (auto; lia). reflexivity.
Qed.

(** On instructions made of pairs "inline advance by [d],
    def_cfa_offset_sf [c]" the replay returns [sp] plus the offset of
    [rule_in_effect]: pairs are applied in full, advance and offset, as long
    as the advance is met with [loc <= pc]. *)
Theorem replay_pairs (cie : CommonInformationEntry) (pc sp : Z) (pairs : list (Z * Z)) :
  Instructions cie = encode_pairs pairs ->
  Forall pair_in_range pairs ->
  CommonInformationEntry_CanonicalFrameAddress cie pc sp
  = replay_result sp
      (rule_in_effect (CodeAlignmentFactor cie) (DataAlignmentFactor cie) pc
         (InitialLocation cie) (StackOffset cie) pairs).
Proof. exact (replay_pairs_run cie pc sp pairs). Qed.

Lemma replay_pairs_witness :
  CommonInformationEntry_CanonicalFrameAddress
    (working_entry 0x2000 8 (encode_pairs [(0x23, 2); (0x10, 3)])) 0x2030 0x10000
  = replay_result 0x10000 (rule_in_effect 1 (-8) 0x2030 0x2000 8 [(0x23, 2); (0x10, 3)]).
Proof.
  apply (replay_pairs (working_entry 0x2000 8 (encode_pairs [(0x23, 2); (0x10, 3)]))
           0x2030 0x10000 [(0x23, 2); (0x10, 3)] eq_refl).
  repeat constructor; cbn; lia.
Defined.

(** For every [pc] from the start of the FDE up to the target of its first
    advance, the replay returns the offset that the first pair installs at
    that target, not the baseline of the CIE, whatever pairs follow. *)
Theorem replay_before_first_advance (cie : CommonInformationEntry) (pc sp d c : Z)
  (pairs : list (Z * Z)) :
  Instructions cie = encode_pairs ((d, c) :: pairs) ->
  Forall pair_in_range ((d, c) :: pairs) ->
  0 <= InitialLocation cie -> 0 <= CodeAlignmentFactor cie ->
  InitialLocation cie + d * CodeAlignmentFactor cie < 2 ^ 64 ->
  InitialLocation cie <= pc < InitialLocation cie + d * CodeAlignmentFactor cie ->
  CommonInformationEntry_CanonicalFrameAddress cie pc sp
  = replay_result sp (int64_of (c * DataAlignmentFactor cie)).
Proof.
  intros Hi Hr Hloc Hcaf Hfit Hpc.
  rewrite (replay_pairs_run cie pc sp _ Hi Hr). f_equal. cbn [rule_in_effect].
  destruct (Z.gtb_spec (InitialLocation cie) pc); [lia|].
  assert (Hd : 0 <= d) by (inv Hr; match goal with H : pair_in_range _ |- _ =>
                                     destruct H as [[? ?] _] end; assumption).
  assert (W : wrap64 (InitialLocation cie + wrap64 (d * CodeAlignmentFactor cie))
              = InitialLocation cie + d * CodeAlignmentFactor cie).
  { unfold wrap64. rewrite (Z.mod_small (d * _)) by nia. apply Z.mod_small. nia. }
  rewrite W. destruct pairs as [|[d' c'] pairs]; [reflexivity|].
  cbn [rule_in_effect].
  destruct (Z.gtb_spec (InitialLocation cie + d * CodeAlignmentFactor cie) pc);
    [reflexivity|lia].
Qed.

Lemma replay_before_first_advance_witness :
  CommonInformationEntry_CanonicalFrameAddress
    (working_entry 0x2000 8 (encode_pairs [(0x23, 2); (0x10, 3)])) 0x2005 0x10000
  = replay_result 0x10000 (int64_of (2 * -8)).
Proof.
  apply (replay_before_first_advance
           (working_entry 0x2000 8 (encode_pairs [(0x23, 2); (0x10, 3)]))
           0x2005 0x10000 0x23 2 [(0x10, 3)] eq_refl).
  - repeat constructor; cbn; lia.
  - cbn. lia.
  - cbn. lia.
  - cbn. lia.
  - cbn. lia.
Defined.

(** ** Advances with an operand *)

Lemma int8_of_byte (v : Z) :
  0 <= v < 256 -> int8_of v = if v <? 128 then v else v - 256.
Proof.
  intros Hv. unfold int8_of. destruct (Z.ltb_spec v 128);
    Z.div_mod_to_equations; lia.
Qed.

Lemma int16_of_half (v : Z) :
  0 <= v < 65536 -> int16_of v = if v <? 32768 then v else v - 65536.
Proof.
  intros Hv. unfold int16_of. destruct (Z.ltb_spec v 32768);
    Z.div_mod_to_equations; lia.
Qed.

Lemma advance_arith (loc delta caf : Z) :
  wrap64 (loc + wrap64 (wrap64 delta * caf)) = (loc + delta * caf) mod 2 ^ 64.
Proof.
  unfold wrap64. now rewrite Z.mul_mod_idemp_l, Z.add_mod_idemp_r by lia.
Qed.

Lemma order_uint_2_range (o : ByteOrder) (b1 b2 : byte) :
  0 <= order_uint o [b1; b2] < 65536.
Proof.
  pose proof (u8_range b1). pose proof (u8_range b2).
  destruct o; cbn [order_uint rev app le_uint]; lia.
Qed.

(** The operands of advance_loc1 and advance_loc2 are read as signed
    numbers: with [loc <= pc], an operand with its top bit set moves [loc]
    backwards (modulo [2 ^ 64]) by its two's-complement value times the code
    alignment factor. *)
Theorem replay_signed_advance (cie : CommonInformationEntry) (pc sp : Z) :
  (forall b rest,
     Instructions cie = x02 :: b :: rest ->
     InitialLocation cie <= pc ->
     CommonInformationEntry_CanonicalFrameAddress cie pc sp
     = CommonInformationEntry_CanonicalFrameAddress
         (with_replay_state cie
            ((InitialLocation cie
              + (if u8 b <? 128 then u8 b else u8 b - 256) * CodeAlignmentFactor cie)
             mod 2 ^ 64)
            (StackOffset cie) rest) pc sp)
  /\ (forall b1 b2 rest,
        Instructions cie = x03 :: b1 :: b2 :: rest ->
        InitialLocation cie <= pc ->
        CommonInformationEntry_CanonicalFrameAddress cie pc sp
        = CommonInformationEntry_CanonicalFrameAddress
            (with_replay_state cie
               ((InitialLocation cie
                 + (if order_uint (cie_order cie) [b1; b2] <? 32768
                    then order_uint (cie_order cie) [b1; b2]
                    else order_uint (cie_order cie) [b1; b2] - 65536)
                   * CodeAlignmentFactor cie)
                mod 2 ^ 64)
               (StackOffset cie) rest) pc sp).
Proof.
  split.
  - intros b rest Hi Hloc. apply CanonicalFrameAddress_unfold. rewrite Hi.
    unfold CanonicalFrameAddress_step. cbn [ReadByte].
    change (u8 x02 =? dw_CFA_def_cfa_offset_sf) with false.
    change (u8 x02 =? dw_CFA_advance_loc1) with true. cbv iota.
    destruct (Z.gtb_spec (InitialLocation cie) pc); [lia|].
    assert (R : binary_Read_int8 (cie_order cie) (b :: rest)
                = OK (int8_of (u8 b), rest)).
    { unfold binary_Read_int8, ReadFull. cbn [length Nat.ltb Nat.leb firstn skipn bind].
      do 3 f_equal. destruct (cie_order cie); cbn [order_uint rev app le_uint]; lia. }
    rewrite R, advance_arith, int8_of_byte by apply u8_range. reflexivity.
  - intros b1 b2 rest Hi Hloc. apply CanonicalFrameAddress_unfold. rewrite Hi.
    unfold CanonicalFrameAddress_step. cbn [ReadByte].
    change (u8 x03 =? dw_CFA_def_cfa_offset_sf) with false.
    change (u8 x03 =? dw_CFA_advance_loc1) with false.
    change (u8 x03 =? dw_CFA_advance_loc2) with true. cbv iota.
    destruct (Z.gtb_spec (InitialLocation cie) pc); [lia|].
    assert (R : binary_Read_int16 (cie_order cie) (b1 :: b2 :: rest)
                = OK (int16_of (order_uint (cie_order cie) [b1; b2]), rest)).
    { reflexivity. }
    rewrite R, advance_arith, int16_of_half by apply order_uint_2_range. reflexivity.
Qed.

(** advance_loc1 with operand 0xf0 from 0x2000: [loc] becomes 0x1ff0. *)
Lemma replay_signed_advance_witness :
  CommonInformationEntry_CanonicalFrameAddress
    (working_entry 0x2000 8 [x02; xf0; x13; x02]) 0x2000 0x10000
  = CommonInformationEntry_CanonicalFrameAddress
      (with_replay_state (working_entry 0x2000 8 [x02; xf0; x13; x02])
         0x1ff0 8 [x13; x02]) 0x2000 0x10000.
Proof.
  apply (proj1 (replay_signed_advance (working_entry 0x2000 8 [x02; xf0; x13; x02])
                  0x2000 0x10000) xf0 [x13; x02] eq_refl).
  cbn. lia.
Defined.

(** ** Loading an encoded CIE and looking up an encoded FDE *)

Lemma Reader_Read_prefix (m t : Reader) :
  m ++ t <> [] -> Reader_Read (length m) (m ++ t) = OK (m, t).
Proof.
  intros Hne. unfold Reader_Read. destruct (m ++ t) as [|b l] eqn:E; [contradiction|].
  rewrite <- E. rewrite firstn_app, firstn_all, Nat.sub_diag, skipn_app, skipn_all,
    Nat.sub_diag. cbn [firstn skipn app repeat].
  rewrite !app_nil_r, Nat.sub_diag. cbn [repeat]. now rewrite app_nil_r.
Qed.

Lemma CommonInformationEntry_Update_nops :
  forall k fuel cie,
  (k < fuel)%nat ->
  CommonInformationEntry_Update fuel cie (repeat x00 k) = Some (cie, EOF).
Proof.
  induction k as [|k IH]; intros fuel cie Hf; (destruct fuel as [|fuel]; [lia|]).
  - reflexivity.
  - cbn [repeat CommonInformationEntry_Update]. unfold Update_step.
    cbn [ReadByte bind]. change (u8 x00 =? dw_CFA_def_cfa) with false.
    change (u8 x00 =? dw_CFA_nop) with true. cbv iota. apply IH. lia.
Qed.

Lemma skipn_prefix {A : Type} (l1 l2 : list A) : skipn (length l1) (l1 ++ l2) = l2.
Proof. now rewrite skipn_app, skipn_all, Nat.sub_diag. Qed.

Lemma Data_parseCommonInformationEntry_cie_record (d : Data) (before after : list byte)
  (caf daf : Z) (rc : byte) (reg off : Z) (pad : nat) :
  frame d = before ++ cie_record (order d) caf daf rc reg off pad ++ after ->
  0 <= caf < 2 ^ 64 -> - 2 ^ 63 <= daf < 2 ^ 63 ->
  0 <= reg < 2 ^ 64 -> 0 <= off < 2 ^ 64 ->
  4 + Z.of_nat (length (cie_body caf daf rc reg off pad)) < 2 ^ 32 ->
  Data_parseCommonInformationEntry d (Z.of_nat (length before))
  = Some (OK (set_def_cfa (new_CommonInformationEntry caf daf rc) reg (int64_of off))).
Proof.
  intros Hframe Hcaf Hdaf Hreg Hoff Hlen.
  unfold Data_parseCommonInformationEntry.
  rewrite Hframe, Nat2Z.id, skipn_prefix. unfold cie_record.
  rewrite <- app_assoc, binary_Read_uint32_put by lia. cbn [lift bindM].
  set (body := cie_body caf daf rc reg off pad) in *.
  set (mark := put_uint (order d) 4 4294967295).
  assert (Hm : length mark = 4%nat) by apply put_uint_length.
  replace (Z.to_nat (4 + Z.of_nat (length body))) with (length (mark ++ body))
    by (rewrite length_app; lia).
  rewrite <- app_assoc, (app_assoc mark body after), Reader_Read_prefix.
  2:{ destruct mark; [discriminate|discriminate]. }
  cbn [bindM]. unfold mark. rewrite binary_Read_uint32_put by lia.
  cbn [lift bindM].
  assert ((4 + Z.of_nat (length body) <? 4) = false) as -> by (apply Z.ltb_ge; lia).
  change (4294967295 =? 4294967295) with true. cbn [orb negb].
  unfold body, cie_body. cbn [app ReadByte lift bindM].
  change (u8 x03 =? 3) with true. change (u8 x00 =? 0) with true. cbn [negb].
  rewrite decode_encodeUnsigned by assumption. cbn [bindM].
  rewrite decode_encodeSigned by assumption. cbn [bindM ReadByte]. cbv zeta.
  cbn [CommonInformationEntry_Update]. unfold Update_step at 1. cbn [ReadByte bind].
  change (u8 x0c =? dw_CFA_def_cfa) with true. cbv iota.
  rewrite <- app_assoc, decode_encodeUnsigned by assumption. cbn [bind].
  rewrite decode_encodeUnsigned by assumption. cbn [bind].
  rewrite CommonInformationEntry_Update_nops; [reflexivity|].
  cbn [length]. rewrite !length_app, repeat_length. lia.
Qed.

(** Loading is the inverse of encoding: from a CIE record of version 3
    without augmentation, with def_cfa(reg, off) and any number of nops as
    its initial instructions, standing anywhere in the region, in either
    byte order, [parseCommonInformationEntry] returns the entry with the
    encoded alignment factors, return column, register and offset. *)
Theorem parseCommonInformationEntry_cie_record (d : Data) (before after : list byte)
  (caf daf : Z) (rc : byte) (reg off : Z) (pad : nat) :
  frame d = before ++ cie_record (order d) caf daf rc reg off pad ++ after ->
  0 <= caf < 2 ^ 64 -> - 2 ^ 63 <= daf < 2 ^ 63 ->
  0 <= reg < 2 ^ 64 -> 0 <= off < 2 ^ 64 ->
  4 + Z.of_nat (length (cie_body caf daf rc reg off pad)) < 2 ^ 32 ->
  Data_parseCommonInformationEntry d (Z.of_nat (length before))
  = Some (OK (set_def_cfa (new_CommonInformationEntry caf daf rc) reg (int64_of off))).
Proof. exact (Data_parseCommonInformationEntry_cie_record d before after caf daf rc reg off pad). Qed.

Lemma parseCommonInformationEntry_cie_record_witness :
  Data_parseCommonInformationEntry
    {| frame := [x00; x00] ++ cie_record BigEndian 4 (-8) x10 7 300 3 ++ [xff];
       order := BigEndian |} (Z.of_nat (length [x00; x00]))
  = Some (OK (set_def_cfa (new_CommonInformationEntry 4 (-8) x10) 7 (int64_of 300))).
Proof.
  apply (parseCommonInformationEntry_cie_record
           {| frame := [x00; x00] ++ cie_record BigEndian 4 (-8) x10 7 300 3 ++ [xff];
              order := BigEndian |} [x00; x00] [xff] 4 (-8) x10 7 300 3 eq_refl);
    try lia.
  vm_compute. reflexivity.
Defined.

Lemma lookup_run (d : Data) (after : list byte) (caf daf : Z) (rc : byte)
  (reg off : Z) (pad : nat) (pcstart pccount : Z) (instructions : list byte)
  (pc sp : Z) :
  frame d = cie_record (order d) caf daf rc reg off pad
            ++ fde_record (order d) 0 pcstart pccount instructions ++ after ->
  0 <= caf < 2 ^ 64 -> - 2 ^ 63 <= daf < 2 ^ 63 ->
  0 <= reg < 2 ^ 64 -> 0 <= off < 2 ^ 64 ->
  4 + Z.of_nat (length (cie_body caf daf rc reg off pad)) < 2 ^ 32 ->
  20 + Z.of_nat (length instructions) < 2 ^ 32 ->
  instructions ++ after <> [] ->
  0 <= pcstart -> 0 <= pccount -> pcstart + pccount < 2 ^ 64 ->
  pcstart <= pc < pcstart + pccount ->
  Data_CanonicalFrameAddress d pc sp
  = CommonInformationEntry_CanonicalFrameAddress
      (bind_fde (set_def_cfa (new_CommonInformationEntry caf daf rc) reg (int64_of off))
         pcstart pccount instructions (order d)) pc sp.
Proof.
  intros Hframe Hcaf Hdaf Hreg Hoff Hlen Hilen Hne Hs Hc Hfit Hpc.
  pose proof (Data_parseCommonInformationEntry_cie_record d [] _ caf daf rc reg off pad
                Hframe Hcaf Hdaf Hreg Hoff Hlen) as Hcie.
  change (Z.of_nat (length (@nil byte))) with 0 in Hcie.
  unfold Data_CanonicalFrameAddress.
  rewrite Data_CanonicalFrameAddress_loop_S. rewrite Hframe at 1.
  set (body := cie_body caf daf rc reg off pad) in *.
  set (fde := fde_record (order d) 0 pcstart pccount instructions) in *.
  unfold cie_record. fold body.
  rewrite <- ?app_assoc, binary_Read_uint32_put by lia. cbn [lift bindM].
  assert ((4 + Z.of_nat (length body) <? 4) = false) as -> by (apply Z.ltb_ge; lia).
  rewrite <- ?app_assoc, binary_Read_uint32_put by lia. cbn [lift bindM].
  change (4294967295 =? 4294967295) with true. cbv iota.
  unfold Seek_cur.
  replace (Z.to_nat (4 + Z.of_nat (length body) - 4)) with (length body) by lia.
  rewrite <- ?app_assoc, skipn_prefix.
  rewrite (Data_CanonicalFrameAddress_loop_fuel d pc sp (length (frame d))
             (S (length (fde ++ after)))).
  2:{ rewrite Hframe. unfold cie_record. rewrite !length_app, put_uint_length. lia. }
  2:{ lia. }
  rewrite Data_CanonicalFrameAddress_loop_S. unfold fde, fde_record.
  rewrite <- ?app_assoc, binary_Read_uint32_put by lia. cbn [lift bindM].
  assert ((20 + Z.of_nat (length instructions) <? 4) = false) as ->
    by (apply Z.ltb_ge; lia).
  rewrite <- ?app_assoc, binary_Read_uint32_put by lia. cbn [lift bindM].
  change (0 =? 4294967295) with false. cbv iota.
  assert ((20 + Z.of_nat (length instructions) <? 20) = false) as ->
    by (apply Z.ltb_ge; lia).
  rewrite <- ?app_assoc, binary_Read_uint64_put by lia. cbn [lift bindM].
  rewrite <- ?app_assoc, binary_Read_uint64_put by lia. cbn [lift bindM].
  assert ((pcstart <=? pc) = true) as -> by (apply Z.leb_le; lia).
  assert ((pc <? wrap64 (pcstart + pccount)) = true) as ->.
  { apply Z.ltb_lt. unfold wrap64. rewrite Z.mod_small; lia. }
  cbn [andb]. rewrite Hcie. cbn [bindM].
  replace (Z.to_nat (20 + Z.of_nat (length instructions) - 20))
    with (length instructions) by lia.
  rewrite Reader_Read_prefix by exact Hne. reflexivity.
Qed.

(** The lookup end to end: in a region that holds an encoded CIE followed
    by an FDE which refers to it and whose instructions are advance/offset
    pairs, every [pc] of the FDE is answered with [sp] plus the offset of
    [rule_in_effect], started at the location of the FDE and the offset of
    the CIE. *)
Theorem lookup_cie_fde_pairs (d : Data) (after : list byte) (caf daf : Z) (rc : byte)
  (reg off : Z) (pad : nat) (pcstart pccount : Z) (pairs : list (Z * Z)) (pc sp : Z) :
  frame d = cie_record (order d) caf daf rc reg off pad
            ++ fde_record (order d) 0 pcstart pccount (encode_pairs pairs) ++ after ->
  0 <= caf < 2 ^ 64 -> - 2 ^ 63 <= daf < 2 ^ 63 ->
  0 <= reg < 2 ^ 64 -> 0 <= off < 2 ^ 64 ->
  4 + Z.of_nat (length (cie_body caf daf rc reg off pad)) < 2 ^ 32 ->
  20 + Z.of_nat (length (encode_pairs pairs)) < 2 ^ 32 ->
  Forall pair_in_range pairs ->
  encode_pairs pairs ++ after <> [] ->
  0 <= pcstart -> 0 <= pccount -> pcstart + pccount < 2 ^ 64 ->
  pcstart <= pc < pcstart + pccount ->
  Data_CanonicalFrameAddress d pc sp
  = replay_result sp (rule_in_effect caf daf pc pcstart (int64_of off) pairs).
Proof.
  intros Hframe Hcaf Hdaf Hreg Hoff Hlen Hilen Hr Hne Hs Hc Hfit Hpc.
  rewrite (lookup_run d after caf daf rc reg off pad pcstart pccount
             (encode_pairs pairs) pc sp) by assumption.
  now rewrite (replay_pairs_run _ pc sp pairs) by (auto; reflexivity).
Qed.

(** The worked example with its parameters read as an instance: code
    alignment 1, data alignment -8, baseline 8, one pair (0x23, 2). *)
Lemma lookup_cie_fde_pairs_witness :
  Data_CanonicalFrameAddress
    {| frame := cie_record LittleEndian 1 (-8) x10 7 8 0
                ++ fde_record LittleEndian 0 0x2000 0x100 (encode_pairs [(0x23, 2)])
                ++ [];
       order := LittleEndian |} 0x2010 0x10000
  = replay_result 0x10000 (rule_in_effect 1 (-8) 0x2010 0x2000 (int64_of 8) [(0x23, 2)]).
Proof.
  apply (lookup_cie_fde_pairs
           {| frame := cie_record LittleEndian 1 (-8) x10 7 8 0
                       ++ fde_record LittleEndian 0 0x2000 0x100
                            (encode_pairs [(0x23, 2)]) ++ [];
              order := LittleEndian |}
           [] 1 (-8) x10 7 8 0 0x2000 0x100 [(0x23, 2)] 0x2010 0x10000 eq_refl);
    try lia.
  - vm_compute. reflexivity.
  - vm_compute. reflexivity.
  - constructor; [|constructor]. split; cbn [fst snd]; lia.
  - discriminate.
Defined.
